(** * Farm: a CRDT-semantic sorted-set API over many clusters

    A verification development for [farm/farm.go].  The Go package is
    embedded shallowly: maps used as sets become [gset], maps become
    [gmap], a buffered channel fed by one goroutine per cluster becomes
    the list of the values sent, in the order of a schedule that says
    which goroutine sends when, and the instrumentation sink becomes the
    list of events it is sent.

    Scores.  A score is a Go [float64]; the code only ever compares
    scores ([==], [>]) and uses them inside map keys; it performs no
    arithmetic on them.  The data model restricts scores to finite values,
    and on finite doubles (with the two zeros identified, as Go's [==]
    and map-key equality do) comparison is a total order.  A score is
    therefore represented by an integer whose order is the order of the
    doubles and whose [0] is [0.0]. *)

From stdpp Require Import gmap strings list sorting.
From Stdlib Require Import ZArith Lia.

Local Open Scope Z_scope.

(** ** Data model *)

(** [common.KeyScoreMember]. *)
Record KeyScoreMember := mkKSM { Key : string; Score : Z; Member : string }.

(** [keyMember]: the identity of an element regardless of its score. *)
Record keyMember := mkKM { kmKey : string; kmMember : string }.

#[global] Instance KeyScoreMember_eq_dec : EqDecision KeyScoreMember.
Proof. solve_decision. Defined.

#[global] Instance keyMember_eq_dec : EqDecision keyMember.
Proof. solve_decision. Defined.

#[global] Instance KeyScoreMember_countable : Countable KeyScoreMember.
Proof.
  refine (inj_countable' (λ t, (Key t, Score t, Member t))
                         (λ p, mkKSM p.1.1 p.1.2 p.2) _).
  by intros [].
Defined.

#[global] Instance keyMember_countable : Countable keyMember.
Proof.
  refine (inj_countable' (λ p, (kmKey p, kmMember p))
                         (λ p, mkKM p.1 p.2) _).
  by intros [].
Defined.

(** [type tupleSet map[common.KeyScoreMember]struct{}] and
    [type keyMemberSet map[keyMember]struct{}]. *)
Abbreviation tupleSet := (gset KeyScoreMember).
Abbreviation keyMemberSet := (gset keyMember).

(** [keyMember{Key: tuple.Key, Member: tuple.Member}] *)
Definition kmOf (tuple : KeyScoreMember) : keyMember :=
  mkKM (Key tuple) (Member tuple).

(** [common.KeyScoreMember{Key: km.Key, Score: s, Member: km.Member}] *)
Definition ksmOf (km : keyMember) (s : Z) : KeyScoreMember :=
  mkKSM (kmKey km) s (kmMember km).

Module TupleSet.
(** [func (s tupleSet) add(tuple)] *)
Definition add (tuple : KeyScoreMember) (s : tupleSet) : tupleSet :=
  {[ tuple ]} ∪ s.

(** [func (s tupleSet) has(tuple) bool] *)
Definition has (s : tupleSet) (tuple : KeyScoreMember) : bool :=
  bool_decide (tuple ∈ s).

(** [func makeSet(a []common.KeyScoreMember) tupleSet] *)
Definition makeSet (a : list KeyScoreMember) : tupleSet :=
  foldl (λ s tuple, add tuple s) ∅ a.

(** [func (s tupleSet) addMany(other tupleSet)] *)
Definition addMany (s other : tupleSet) : tupleSet :=
  foldl (λ s tuple, add tuple s) s (elements other).

(** [func (s tupleSet) slice()]: the elements in the order in which
    the map is ranged over. *)
Definition slice (s : tupleSet) : list KeyScoreMember := elements s.
End TupleSet.

Module KeyMemberSet.
(** [func (s keyMemberSet) add(km)] *)
Definition add (km : keyMember) (s : keyMemberSet) : keyMemberSet :=
  {[ km ]} ∪ s.

(** [func (s keyMemberSet) addMany(other keyMemberSet)] *)
Definition addMany (s other : keyMemberSet) : keyMemberSet :=
  foldl (λ s km, add km s) s (elements other).

(** [func (s keyMemberSet) slice()] *)
Definition slice (s : keyMemberSet) : list keyMember := elements s.
End KeyMemberSet.

(** ** unionDifference *)

(** The "For union" half of the loop body:
    [if score, ok := scores[km]; !ok || tuple.Score > score
       { scores[km] = tuple.Score }]. *)
Definition scoreStep (scores : gmap keyMember Z) (tuple : KeyScoreMember)
  : gmap keyMember Z :=
  let km := kmOf tuple in
  match scores !! km with
  | Some score =>
      if Score tuple >? score then <[km := Score tuple]> scores else scores
  | None => <[km := Score tuple]> scores
  end.

(** The "For difference" half: [counts[tuple]++] (a missing key reads as
    0).  A count never exceeds [len(tupleSets)], so the Go [int] cannot
    wrap. *)
Definition countStep (counts : gmap KeyScoreMember Z) (tuple : KeyScoreMember)
  : gmap KeyScoreMember Z :=
  <[tuple := default 0 (counts !! tuple) + 1]> counts.

(** One pass of the inner loop [for tuple := range tupleSet]. *)
Definition scanTuple (st : gmap keyMember Z * gmap KeyScoreMember Z)
    (tuple : KeyScoreMember) : gmap keyMember Z * gmap KeyScoreMember Z :=
  (scoreStep st.1 tuple, countStep st.2 tuple).

(** The inner loop, over the elements of one input set. *)
Definition scanSet (st : gmap keyMember Z * gmap KeyScoreMember Z)
    (s : tupleSet) : gmap keyMember Z * gmap KeyScoreMember Z :=
  foldl scanTuple st (elements s).

(** [func unionDifference(tupleSets []tupleSet) (tupleSet, keyMemberSet)] *)
Definition unionDifference (tupleSets : list tupleSet)
  : tupleSet * keyMemberSet :=
  let expectedCount := Z.of_nat (length tupleSets) in
  let '(scores, counts) := foldl scanSet (∅, ∅) tupleSets in
  let union :=
    map_fold (λ km bestScore union, TupleSet.add (ksmOf km bestScore) union)
             ∅ scores in
  let difference :=
    map_fold (λ ksm count difference,
                if count <? expectedCount
                then KeyMemberSet.add (kmOf ksm) difference
                else difference)
             ∅ counts in
  (union, difference).

Definition unionOf (tupleSets : list tupleSet) : tupleSet :=
  (unionDifference tupleSets).1.

Definition differenceOf (tupleSets : list tupleSet) : keyMemberSet :=
  (unionDifference tupleSets).2.

(** ** orderedLimitedSlice *)

(** Go compares strings bytewise, as [String.compare] does. *)
Definition strLess (a b : string) : bool := String.ltb a b.

(** Modelled from the spec: [Less] of [common.KeyScoreMembers], the
    [sort.Interface] that [orderedLimitedSlice] sorts with; package
    [common] is outside [farm.go].  The canonical order is key
    ascending, then score descending, then member ascending. *)
Definition Less (a b : KeyScoreMember) : bool :=
  if negb (String.eqb (Key a) (Key b)) then strLess (Key a) (Key b)
  else if negb (Score a =? Score b) then Score a >? Score b
  else strLess (Member a) (Member b).

(** [a] may stand before [b] in a sorted slice: [b] is not less than [a]. *)
Definition canonical (a b : KeyScoreMember) : Prop := Less b a = false.

#[global] Instance canonical_dec a b : Decision (canonical a b).
Proof. unfold canonical. apply _. Defined.

(** [sort.Sort(common.KeyScoreMembers(a))]: Go's library sort, which
    rearranges [a] so that no element is [Less] than one before it.  It
    is modelled by merge sort; [sortKSM_unique] shows that on a slice
    without repetition there is only one such arrangement, so the choice
    of algorithm does not matter. *)
Definition sortKSM (a : list KeyScoreMember) : list KeyScoreMember :=
  merge_sort canonical a.

(** [a[:limit]] on a slice of length [len(a) > limit]: a negative bound
    panics. *)
Definition sliceTo {A} (a : list A) (limit : Z) : option (list A) :=
  if limit <? 0 then None else Some (take (Z.to_nat limit) a).

(** The body of [orderedLimitedSlice] once [s.slice()] has produced [a]. *)
Definition orderLimit (a : list KeyScoreMember) (limit : Z)
  : option (list KeyScoreMember) :=
  let a := sortKSM a in
  if Z.of_nat (length a) >? limit then sliceTo a limit else Some a.

(** [func (s tupleSet) orderedLimitedSlice(limit int)];
    [None] is the run-time panic of an out-of-range slice bound. *)
Definition orderedLimitedSlice (s : tupleSet) (limit : Z)
  : option (list KeyScoreMember) :=
  orderLimit (TupleSet.slice s) limit.

(** ** Clusters and instrumentation *)

(** A Go [error]: [nil] or a value with an [Error()] string. *)
Abbreviation error := (option string).

(** The part of [cluster.Cluster] that [farm.go] calls.  A cluster is
    opaque to the farm, and within one farm call every method is invoked
    at most once per cluster, so a method is given by the result it
    returns for its arguments. *)
Module Cluster.
Record t := {
  Insert : list KeyScoreMember → error;
  Delete : list KeyScoreMember → error;
  Score : string → string → Z * bool * error
}.
End Cluster.

(** What the farm sends to [instrumentation.Instrumentation].  The
    durations are wall-clock readings and are left out; the event is
    kept. *)
Inductive event :=
  | InsertCall | InsertRecordCount (n : Z) | InsertCallDuration
  | InsertRecordDuration | InsertQuorumFailure
  | DeleteCall | DeleteRecordCount (n : Z) | DeleteCallDuration
  | DeleteRecordDuration | DeleteQuorumFailure
  | RepairCall | RepairRequestCount (n : Z) | RepairCheckPartialFailure
  | RepairCheckCompleteFailure | RepairCheckRedundant | RepairCheckDuration
  | RepairWriteCount | RepairWriteSuccess | RepairWriteFailure
  | RepairWriteDuration.

#[global] Instance event_eq_dec : EqDecision event.
Proof. solve_decision. Defined.

(** [type writeInstrumentation interface] *)
Record writeInstrumentation := {
  call : event;
  recordCount : Z → event;
  callDuration : event;
  recordDuration : event;
  quorumFailure : event
}.

Definition insertInstrumentation : writeInstrumentation :=
  {| call := InsertCall; recordCount := InsertRecordCount;
     callDuration := InsertCallDuration;
     recordDuration := InsertRecordDuration;
     quorumFailure := InsertQuorumFailure |}.

Definition deleteInstrumentation : writeInstrumentation :=
  {| call := DeleteCall; recordCount := DeleteRecordCount;
     callDuration := DeleteCallDuration;
     recordDuration := DeleteRecordDuration;
     quorumFailure := DeleteQuorumFailure |}.

(** [type scoreResponseTuple struct] *)
Record scoreResponseTuple := {
  cluster : nat;
  score : Z;
  wasInserted : bool;
  err : error
}.

(** ** The farm *)

(** What one call of [write] lets an observer see: the returned error,
    how many replies were taken from [errChan] before returning, and the
    instrumentation events. *)
Record WriteOutcome := {
  returned : error;
  received : Z;
  writeEvents : list event
}.

(** One write pushed to a cluster by [Repair]. *)
Record repairWrite := {
  target : nat;               (* index of the cluster written to *)
  viaInsert : bool;           (* [c.Insert] if true, [c.Delete] if not *)
  payload : list KeyScoreMember;
  pushResult : error
}.

(** What one call of [Repair] lets an observer see. *)
Record RepairOutcome := {
  writes : list repairWrite;
  repairEvents : list event
}.

(** The locals of [Repair]'s gather loop. *)
Record gatherState := {
  clustersUpToDate : gmap nat bool;
  highestScore : Z;
  wasInsertedBest : bool;
  partialFailures : list event
}.

Module Farm.

(** [type Farm struct].  The read and repair strategies are values of
    types declared outside [farm.go]; no method modelled here reads
    them.  The instrumentation sink is represented by the events the
    methods emit. *)
Record t := {
  clusters : list Cluster.t;
  writeQuorum : Z
}.

(** [func New(clusters, writeQuorum, ...) *Farm]: the arguments are
    stored as they come (a [nil] instrumentation is replaced by the
    no-op sink, which the event lists do not tell apart). *)
Definition New (clusters : list Cluster.t) (writeQuorum : Z) : t :=
  {| clusters := clusters; writeQuorum := writeQuorum |}.

(** [haveQuorum := func() bool { return got-len(errors) >= need }] *)
Definition haveQuorum (errors : list string) (got need : Z) : bool :=
  got - Z.of_nat (length errors) >=? need.

(** The gather loop of [write],
    [for i := 0; i < cap(errChan); i++ { err := <-errChan; ... }],
    with [n] iterations left to run.  [errChan] lists the values the
    channel delivers, in order; receiving from a channel that delivers
    nothing more blocks forever, which is [None]. *)
Fixpoint gather (need : Z) (n : nat) (errChan : list error)
    (errors : list string) (got : Z) : option (list string * Z) :=
  match n with
  | O => Some (errors, got)
  | S n' =>
      match errChan with
      | [] => None
      | err :: errChan' =>
          let errors :=
            match err with
            | Some e => errors ++ [e]
            | None => errors
            end in
          let got := got + 1 in
          if haveQuorum errors got need then Some (errors, got)
          else gather need n' errChan' errors got
      end
  end.

(** A buffered channel with one sender per cluster: [arrival] lists the
    cluster indices in the order in which their goroutines send, and the
    channel delivers what they sent in that order. *)
Definition deliver {A} (arrival : list nat) (sent : list A) : list A :=
  omap (λ i, sent !! i) arrival.

(** The scatter phase of [write]: the goroutine of every cluster runs
    [action] and sends its result to [errChan]. *)
Definition scatter (f : t)
    (action : Cluster.t → list KeyScoreMember → error)
    (tuples : list KeyScoreMember) : list error :=
  map (λ c, action c tuples) (clusters f).

(** [fmt.Errorf("no quorum (%s)", strings.Join(errors, "; "))] *)
Definition noQuorum (errors : list string) : string :=
  String.append "no quorum ("
    (String.append (String.concat "; " errors) ")").

(** [func (f *Farm) write(tuples, action, instr) error], under the
    schedule [arrival] of the scattered goroutines. *)
Definition write (f : t) (tuples : list KeyScoreMember)
    (action : Cluster.t → list KeyScoreMember → error)
    (instr : writeInstrumentation) (arrival : list nat)
  : option WriteOutcome :=
  if Z.of_nat (length tuples) <=? 0 then
    Some {| returned := None; received := 0; writeEvents := [] |}
  else
    let began := [call instr; recordCount instr (Z.of_nat (length tuples))] in
    let deferred := [callDuration instr; recordDuration instr] in
    let errChan := deliver arrival (scatter f action tuples) in
    match gather (writeQuorum f) (length (clusters f)) errChan [] 0 with
    | None => None
    | Some (errors, got) =>
        if negb (haveQuorum errors got (writeQuorum f)) then
          Some {| returned := Some (noQuorum errors);
                  received := got;
                  writeEvents := began ++ [quorumFailure instr] ++ deferred |}
        else
          Some {| returned := None;
                  received := got;
                  writeEvents := began ++ deferred |}
    end.

(** [func (f *Farm) Insert(tuples) error] *)
Definition Insert (f : t) (tuples : list KeyScoreMember)
    (arrival : list nat) : option WriteOutcome :=
  write f tuples (λ c a, Cluster.Insert c a) insertInstrumentation arrival.

(** [func (f *Farm) Delete(tuples) error] *)
Definition Delete (f : t) (tuples : list KeyScoreMember)
    (arrival : list nat) : option WriteOutcome :=
  write f tuples (λ c a, Cluster.Delete c a) deleteInstrumentation arrival.

(** The scatter phase of [Repair]: cluster [i] sends
    [scoreResponseTuple{i, score, wasInserted, err}]. *)
Definition scatterScore (f : t) (km : keyMember) : list scoreResponseTuple :=
  imap (λ i c,
          let '(s, w, e) := Cluster.Score c (kmKey km) (kmMember km) in
          {| cluster := i; score := s; wasInserted := w; err := e |})
       (clusters f).

(** The body of [Repair]'s gather loop. *)
Definition gatherStep (st : gatherState) (resp : scoreResponseTuple)
  : gatherState :=
  match err resp with
  | Some _ =>
      {| clustersUpToDate := clustersUpToDate st;
         highestScore := highestScore st;
         wasInsertedBest := wasInsertedBest st;
         partialFailures :=
           partialFailures st ++ [RepairCheckPartialFailure] |}
  | None =>
      if (score resp =? highestScore st)
         && Bool.eqb (wasInserted resp) (wasInsertedBest st)
      then
        {| clustersUpToDate := <[cluster resp := true]> (clustersUpToDate st);
           highestScore := highestScore st;
           wasInsertedBest := wasInsertedBest st;
           partialFailures := partialFailures st |}
      else if score resp >? highestScore st then
        {| clustersUpToDate := <[cluster resp := true]> ∅;
           highestScore := score resp;
           wasInsertedBest := wasInserted resp;
           partialFailures := partialFailures st |}
      else st
  end.

(** [for i := 0; i < cap(responsesChan); i++ { resp := <-responsesChan; ... }] *)
Fixpoint gatherScores (n : nat) (responsesChan : list scoreResponseTuple)
    (st : gatherState) : option gatherState :=
  match n with
  | O => Some st
  | S n' =>
      match responsesChan with
      | [] => None
      | resp :: responsesChan' =>
          gatherScores n' responsesChan' (gatherStep st resp)
      end
  end.

(** The locals before the loop: [clustersUpToDate := map[int]bool{}],
    [highestScore := 0.], [var wasInserted bool]. *)
Definition gatherInit : gatherState :=
  {| clustersUpToDate := ∅; highestScore := 0; wasInsertedBest := false;
     partialFailures := [] |}.

(** The election: scatter, then gather. *)
Definition elect (f : t) (km : keyMember) (arrival : list nat)
  : option gatherState :=
  let responsesChan := deliver arrival (scatterScore f km) in
  gatherScores (length (clusters f)) responsesChan gatherInit.

(** The propagation loop
    [for i, c := range f.clusters { if !clustersUpToDate[i] { go ... } }]. *)
Definition propagate (f : t) (st : gatherState) (ksm : KeyScoreMember)
  : list repairWrite :=
  mjoin (imap (λ i c,
                 if negb (default false (clustersUpToDate st !! i)) then
                   [ {| target := i;
                        viaInsert := wasInsertedBest st;
                        payload := [ksm];
                        pushResult :=
                          if wasInsertedBest st
                          then Cluster.Insert c [ksm]
                          else Cluster.Delete c [ksm] |} ]
                 else [])
              (clusters f)).

(** The events of one push. *)
Definition pushEvents (w : repairWrite) : list event :=
  [ match pushResult w with
    | None => RepairWriteSuccess
    | Some _ => RepairWriteFailure
    end;
    RepairWriteDuration ].

(** [func (f *Farm) Repair(km keyMember)], under the schedule
    [arrival] of the scattered score queries.  Events sent from
    goroutines are listed at the point where the goroutine is started. *)
Definition Repair (f : t) (km : keyMember) (arrival : list nat)
  : option RepairOutcome :=
  match elect f km arrival with
  | None => None
  | Some st =>
      let checked :=
        [RepairCall; RepairRequestCount 1] ++ partialFailures st
        ++ [RepairCheckDuration] in
      if highestScore st =? 0 then
        Some {| writes := [];
                repairEvents := checked ++ [RepairCheckCompleteFailure] |}
      else if Z.of_nat (size (clustersUpToDate st))
              =? Z.of_nat (length (clusters f)) then
        Some {| writes := [];
                repairEvents := checked ++ [RepairCheckRedundant] |}
      else
        let ksm := mkKSM (kmKey km) (highestScore st) (kmMember km) in
        let pushed := propagate f st ksm in
        Some {| writes := pushed;
                repairEvents :=
                  checked ++ [RepairWriteCount] ++ (pushed ≫= pushEvents) |}
  end.

End Farm.

(** ** Vocabulary of the statements *)

(** The tuples the double loop visits, in order. *)
Definition visited (sets : list tupleSet) : list KeyScoreMember :=
  sets ≫= elements.

(** What [scores] holds for [km] once the tuples [L] have been visited:
    nothing if [km] was not met, else a visited score of [km] that
    bounds every visited score of [km]. *)
Definition bestOf (L : list KeyScoreMember) (km : keyMember) (o : option Z)
  : Prop :=
  match o with
  | Some b =>
      (∃ t, t ∈ L ∧ kmOf t = km ∧ Score t = b)
      ∧ (∀ t, t ∈ L → kmOf t = km → Score t ≤ b)
  | None => ∀ t, t ∈ L → kmOf t ≠ km
  end.

(** Occurrences of [t] among the visited tuples. *)
Definition occurrences (t : KeyScoreMember) (L : list KeyScoreMember) : nat :=
  length (filter (t =.) L).

(** How many input sets hold [t].  A set is ranged over without
    repetition, so this is how often [t] is visited. *)
Definition holders (t : KeyScoreMember) (sets : list tupleSet) : nat :=
  length (filter (λ s, t ∈ s) sets).

(** An input that holds every key-member under at most one score. *)
Definition singleScored (s : tupleSet) : Prop :=
  ∀ t t', t ∈ s → t' ∈ s → kmOf t = kmOf t' → t = t'.

(** The pair [km] appears with one and the same score in every input. *)
Definition agreeEverywhere (sets : list tupleSet) (km : keyMember) : Prop :=
  ∃ sc, ∀ s, s ∈ sets → ksmOf km sc ∈ s.

(** The pair [km] is missing from an input, or two inputs hold it with
    differing scores. *)
Definition missingOrDiffering (sets : list tupleSet) (km : keyMember) : Prop :=
  (∃ s, s ∈ sets ∧ ∀ sc, ksmOf km sc ∉ s)
  ∨ (∃ s1 s2 sc1 sc2, s1 ∈ sets ∧ s2 ∈ sets ∧ sc1 ≠ sc2
                      ∧ ksmOf km sc1 ∈ s1 ∧ ksmOf km sc2 ∈ s2).

(** The error strings among some replies, in order. *)
Definition errorStrings (replies : list error) : list string :=
  omap id replies.

(** How many of some replies are acknowledgements ([nil] errors). *)
Definition acknowledgements (replies : list error) : Z :=
  Z.of_nat (length (filter (λ e : error, e = None) replies)).

(** [e] occurs inside [msg]. *)
Definition contains (msg e : string) : Prop :=
  ∃ pre post, msg = String.append pre (String.append e post).

(** The quorum test of [write] after [j] replies. *)
Definition quorumAfter (need : Z) (chan : list error) (j : nat) : bool :=
  Farm.haveQuorum (errorStrings (take j chan)) (Z.of_nat j) need.

(** The verdict of a write, read against what the clusters replied:
    success exactly when at least [writeQuorum] clusters acknowledged,
    and otherwise the one message that joins every error string among
    the replies received. *)
Definition quorumVerdict (f : Farm.t)
    (action : Cluster.t → list KeyScoreMember → error)
    (tuples : list KeyScoreMember) (arrival : list nat)
    (out : WriteOutcome) : Prop :=
  let sent := Farm.scatter f action tuples in
  let observed :=
    errorStrings (take (Z.to_nat (received out)) (Farm.deliver arrival sent)) in
  (returned out = None ↔ Farm.writeQuorum f ≤ acknowledgements sent)
  ∧ (∀ msg, returned out = Some msg →
            msg = Farm.noQuorum observed ∧ ∀ e, e ∈ observed → contains msg e).

(** A failed write has received the reply of every cluster, and fewer
    than [writeQuorum] of them are acknowledgements; a successful write
    stops at the first reply at which the acknowledgements received
    reach [writeQuorum]. *)
Definition reportsLate (f : Farm.t)
    (action : Cluster.t → list KeyScoreMember → error)
    (tuples : list KeyScoreMember) (arrival : list nat)
    (out : WriteOutcome) : Prop :=
  let sent := Farm.scatter f action tuples in
  let chan := Farm.deliver arrival sent in
  (returned out ≠ None →
     received out = Z.of_nat (length (Farm.clusters f))
     ∧ acknowledgements sent < Farm.writeQuorum f)
  ∧ (returned out = None →
     Farm.writeQuorum f ≤ acknowledgements (take (Z.to_nat (received out)) chan)
     ∧ ∀ j, (0 < j < Z.to_nat (received out))%nat →
            acknowledgements (take j chan) < Farm.writeQuorum f).

(** Quorum has become unreachable after [j] replies:
    successes + pending < writeQuorum. *)
Definition unreachableAfter (need : Z) (chan : list error) (j : nat) : bool :=
  acknowledgements (take j chan) + (Z.of_nat (length chan) - Z.of_nat j) <? need.

(** A cluster that acknowledges every write and knows no pair. *)
Definition reliable : Cluster.t :=
  {| Cluster.Insert := λ _, None;
     Cluster.Delete := λ _, None;
     Cluster.Score := λ _ _, (0, false, None) |}.

(** A cluster that fails every call with the error [msg]. *)
Definition failing (msg : string) : Cluster.t :=
  {| Cluster.Insert := λ _, Some msg;
     Cluster.Delete := λ _, Some msg;
     Cluster.Score := λ _ _, (0, false, Some msg) |}.

(** The run of a write ends in the quorum-failure error and records the
    quorum-failure counter [qf]. *)
Definition failsQuorum (run : option WriteOutcome) (qf : event) : Prop :=
  ∃ out errors, run = Some out
                ∧ returned out = Some (Farm.noQuorum errors)
                ∧ qf ∈ writeEvents out.

(** The run of a write over [n] clusters ends in success right after the
    first reply (after none if there is no cluster to reply). *)
Definition succeedsAtFirstReply (run : option WriteOutcome) (n : nat) : Prop :=
  ∃ out, run = Some out
         ∧ returned out = None
         ∧ received out = Z.min 1 (Z.of_nat n).

(** The response [r] agrees with what the gather loop currently holds
    as the highest-scoring (score, side). *)
Definition agrees (st : gatherState) (r : scoreResponseTuple) : Prop :=
  err r = None ∧ score r = highestScore st
  ∧ wasInserted r = wasInsertedBest st.

(** The score queries that failed among some responses. *)
Definition failedQueries (seen : list scoreResponseTuple) : nat :=
  length (filter (λ r, err r ≠ None) seen).

(** What the gather loop of [Repair] maintains over the responses seen. *)
Record gatherInv (st : gatherState) (seen : list scoreResponseTuple) : Prop := {
  inv_nonneg : 0 ≤ highestScore st;
  inv_bound : ∀ r, r ∈ seen → err r = None → score r ≤ highestScore st;
  inv_attained :
    (highestScore st = 0 ∧ wasInsertedBest st = false)
    ∨ (∃ r, r ∈ seen ∧ agrees st r);
  inv_marked_sound :
    ∀ i b, clustersUpToDate st !! i = Some b →
           b = true ∧ ∃ r, r ∈ seen ∧ cluster r = i ∧ agrees st r;
  inv_marked_complete :
    ∀ r, r ∈ seen → agrees st r →
         clustersUpToDate st !! cluster r = Some true;
  inv_failures :
    partialFailures st
    = replicate (failedQueries seen) RepairCheckPartialFailure
}.

(** What cluster [c] answers to the score query for [km]. *)
Definition replyOf (c : Cluster.t) (km : keyMember) : Z * bool * error :=
  Cluster.Score c (kmKey km) (kmMember km).

(** The elected (score, side), as a successful reply. *)
Definition winning (st : gatherState) : Z * bool * error :=
  (highestScore st, wasInsertedBest st, None).

(** The writes of a repair that go to cluster [i]. *)
Definition writesTo (i : nat) (ws : list repairWrite) : list repairWrite :=
  filter (λ w, target w = i) ws.

(** The push of the elected tuple to cluster [i]. *)
Definition pushOf (st : gatherState) (km : keyMember) (i : nat) (c : Cluster.t)
  : repairWrite :=
  let ksm := mkKSM (kmKey km) (highestScore st) (kmMember km) in
  {| target := i;
     viaInsert := wasInsertedBest st;
     payload := [ksm];
     pushResult := if wasInsertedBest st
                   then Cluster.Insert c [ksm] else Cluster.Delete c [ksm] |}.

(** A cluster that holds the queried pair with score [s] on the inserted
    ([w = true]) or deleted side, and acknowledges every write. *)
Definition holding (s : Z) (w : bool) : Cluster.t :=
  {| Cluster.Insert := λ _, None;
     Cluster.Delete := λ _, None;
     Cluster.Score := λ _ _, (s, w, None) |}.

(** [unionDifference] with the order in which each input map is ranged
    over made explicit: [ranges] lists, for every input set, its tuples
    in the order of [for tuple := range tupleSet]. *)
Definition unionDifferenceRanged (ranges : list (list KeyScoreMember))
  : tupleSet * keyMemberSet :=
  let expectedCount := Z.of_nat (length ranges) in
  let '(scores, counts) := foldl (foldl scanTuple) (∅, ∅) ranges in
  let union :=
    map_fold (λ km bestScore union, TupleSet.add (ksmOf km bestScore) union)
             ∅ scores in
  let difference :=
    map_fold (λ ksm count difference,
                if count <? expectedCount
                then KeyMemberSet.add (kmOf ksm) difference
                else difference)
             ∅ counts in
  (union, difference).

(** [r] is the first successful response among [seen] that carries the
    score [hs]. *)
Definition firstWith (seen : list scoreResponseTuple) (hs : Z)
    (r : scoreResponseTuple) : Prop :=
  ∃ pre post, seen = pre ++ r :: post
              ∧ err r = None ∧ score r = hs
              ∧ ∀ r', r' ∈ pre → err r' = None → score r' < hs.

(** How many clusters of the farm fail the score query for [km]. *)
Definition failingQueries (f : Farm.t) (km : keyMember) : nat :=
  length (filter (λ c, (replyOf c km).2 ≠ None) (Farm.clusters f)).

(** What a repair records, up to order: several of the events are sent
    from goroutines of their own, so the sink may receive them in any
    order.  The events are the two of the call, one partial failure per
    failed score query, the check duration, and those of [ending]. *)
Definition repairRecords (out : RepairOutcome) (failed : nat)
    (ending : list event) : Prop :=
  repairEvents out
  ≡ₚ [RepairCall; RepairRequestCount 1]
     ++ replicate failed RepairCheckPartialFailure
     ++ [RepairCheckDuration] ++ ending.

(** How many clusters of the farm acknowledge the call [action] on the
    batch [tuples]. *)
Definition acknowledging (f : Farm.t)
    (action : Cluster.t → list KeyScoreMember → error)
    (tuples : list KeyScoreMember) : Z :=
  Z.of_nat (length (filter (λ c, action c tuples = None) (Farm.clusters f))).

(** The error strings of the clusters' calls, in the order [arrival] in
    which the clusters reply. *)
Definition errorsInArrival (f : Farm.t)
    (action : Cluster.t → list KeyScoreMember → error)
    (tuples : list KeyScoreMember) (arrival : list nat) : list string :=
  omap (λ i, Farm.clusters f !! i ≫= λ c, action c tuples) arrival.

(** The verdict of a write, read against the clusters themselves:
    success exactly when at least [writeQuorum] clusters acknowledge the
    batch; otherwise every reply has been received and the error is the
    one message that joins the error strings of the failing clusters, in
    the order of their replies, and so contains each of them. *)
Definition verdictOfClusters (f : Farm.t)
    (action : Cluster.t → list KeyScoreMember → error)
    (tuples : list KeyScoreMember) (arrival : list nat)
    (out : WriteOutcome) : Prop :=
  (returned out = None ↔ Farm.writeQuorum f ≤ acknowledging f action tuples)
  ∧ (∀ msg, returned out = Some msg →
            received out = Z.of_nat (length (Farm.clusters f))
            ∧ msg = Farm.noQuorum (errorsInArrival f action tuples arrival)
            ∧ ∀ c e, c ∈ Farm.clusters f → action c tuples = Some e →
                     contains msg e).

(** * Properties *)

(** ** The reconciliation pass of [unionDifference] *)

Section scan.
Implicit Types (L : list KeyScoreMember) (t : KeyScoreMember).
Implicit Types (sets : list tupleSet) (km : keyMember).

Lemma foldl_scanTuple_split L st :
  foldl scanTuple st L = (foldl scoreStep st.1 L, foldl countStep st.2 L).
Proof.
  revert st. induction L as [|t L IH]; intros [sc ct]; simpl; [done|].
  by rewrite IH.
Qed.

Lemma foldl_scanSet_flat sets st :
  foldl scanSet st sets = foldl scanTuple st (sets ≫= elements).
Proof.
  revert st. induction sets as [|s sets IH]; intros st; simpl; [done|].
  by rewrite IH, foldl_app.
Qed.

Lemma elem_of_visited sets t : t ∈ visited sets ↔ ∃ s, s ∈ sets ∧ t ∈ s.
Proof.
  unfold visited. rewrite list_elem_of_bind.
  split.
  - intros (s & Ht & Hs). exists s. split; [done|by apply elem_of_elements].
  - intros (s & Hs & Ht). exists s. split; [by apply elem_of_elements|done].
Qed.

Lemma scoreStep_lookup (m : gmap keyMember Z) x km :
  scoreStep m x !! km =
    if decide (kmOf x = km)
    then Some (match m !! km with
               | Some sc => Z.max sc (Score x)
               | None => Score x
               end)
    else m !! km.
Proof.
  unfold scoreStep. case_decide as Hkm.
  - subst km. destruct (m !! kmOf x) as [sc|] eqn:Hx.
    + destruct (Z.gtb_spec (Score x) sc).
      * rewrite lookup_insert_eq. f_equal. lia.
      * rewrite Hx. f_equal. lia.
    + by rewrite lookup_insert_eq.
  - destruct (m !! kmOf x) as [sc|]; [destruct (Score x >? sc)|];
      by rewrite ?lookup_insert_ne.
Qed.

Lemma in_snoc_last L x : x ∈ L ++ [x].
Proof. apply elem_of_app. right. by apply list_elem_of_singleton. Qed.

Lemma in_snoc_init L x t : t ∈ L → t ∈ L ++ [x].
Proof. intros. apply elem_of_app. by left. Qed.

Lemma scores_spec L km : bestOf L km (foldl scoreStep ∅ L !! km).
Proof.
  induction L as [|x L IH] using rev_ind.
  - simpl. rewrite lookup_empty. intros t Ht. by apply elem_of_nil in Ht.
  - rewrite foldl_snoc, scoreStep_lookup.
    set (m := foldl scoreStep ∅ L) in *.
    case_decide as Hkm.
    + destruct (m !! km) as [sc|]; simpl in *.
      * destruct IH as [(t & Ht & Htk & Hts) Hub]. split.
        -- destruct (Z.max_spec sc (Score x)) as [[? ->]|[? ->]].
           ++ exists x. eauto using in_snoc_last.
           ++ exists t. eauto using in_snoc_init.
        -- intros t' [Ht'| ->%list_elem_of_singleton]%elem_of_app Hk;
             [specialize (Hub t' Ht' Hk)|]; lia.
      * split; [exists x; eauto using in_snoc_last|].
        intros t' [Ht'| ->%list_elem_of_singleton]%elem_of_app Hk;
          [by destruct (IH t' Ht' Hk)|lia].
    + destruct (m !! km) as [sc|]; simpl in *.
      * destruct IH as [(t & Ht & Htk & Hts) Hub]. split.
        -- exists t. eauto using in_snoc_init.
        -- intros t' [Ht'| ->%list_elem_of_singleton]%elem_of_app ?;
             [by apply Hub|done].
      * intros t' [Ht'| ->%list_elem_of_singleton]%elem_of_app;
          [by apply IH|done].
Qed.

Lemma countStep_lookup (m : gmap KeyScoreMember Z) x t :
  countStep m x !! t =
    if decide (x = t) then Some (default 0 (m !! t) + 1) else m !! t.
Proof.
  unfold countStep. case_decide as Ht.
  - subst. by rewrite lookup_insert_eq.
  - by rewrite lookup_insert_ne.
Qed.

(** [counts] holds, for every tuple visited, how often it was. *)
Lemma counts_spec L t :
  foldl countStep ∅ L !! t =
    if decide (occurrences t L = 0%nat) then None
    else Some (Z.of_nat (occurrences t L)).
Proof.
  unfold occurrences. induction L as [|x L IH] using rev_ind; [done|].
  rewrite foldl_snoc, countStep_lookup, filter_app, length_app, IH.
  rewrite filter_cons, filter_nil.
  destruct (decide (x = t)) as [->|Hne].
  - rewrite (decide_True (P := t = t)) by done. simpl.
    rewrite (decide_False (P := (_ + 1)%nat = 0%nat)) by lia.
    case_decide as H0; simpl; f_equal; lia.
  - rewrite (decide_False (P := t = x)) by done. simpl.
    by rewrite Nat.add_0_r.
Qed.

Lemma bestOf_functional L km o o' : bestOf L km o → bestOf L km o' → o = o'.
Proof.
  destruct o as [b|], o' as [b'|]; simpl; try done.
  - intros [(t & Ht & Hk & Hs) Hub] [(t' & Ht' & Hk' & Hs') Hub'].
    specialize (Hub t' Ht' Hk'). specialize (Hub' t Ht Hk). f_equal. lia.
  - intros [(t & Ht & Hk & _) _] Hnone. by destruct (Hnone t Ht).
  - intros Hnone [(t & Ht & Hk & _) _]. by destruct (Hnone t Ht).
Qed.

Lemma bestOf_Permutation L L' km o : L ≡ₚ L' → bestOf L km o → bestOf L' km o.
Proof.
  intros Hperm.
  assert (Hin : ∀ t, t ∈ L ↔ t ∈ L') by (intros t; by rewrite Hperm).
  destruct o as [b|]; simpl.
  - intros [(t & Ht & Hk & Hs) Hub]. split.
    + exists t. by rewrite <-Hin.
    + intros t' Ht'. apply Hub. by rewrite Hin.
  - intros Hnone t Ht. apply Hnone. by rewrite Hin.
Qed.

(** Go ranges over a map in an unspecified order; the pass over the
    tuples does not depend on it. *)
Lemma scan_order_irrelevant L L' :
  L ≡ₚ L' → foldl scanTuple (∅, ∅) L = foldl scanTuple (∅, ∅) L'.
Proof.
  intros Hperm. rewrite !foldl_scanTuple_split. simpl. f_equal.
  - apply map_eq. intros km.
    apply (bestOf_functional L' km); [|apply scores_spec].
    apply (bestOf_Permutation L); [done|apply scores_spec].
  - apply map_eq. intros t. rewrite !counts_spec.
    assert (occurrences t L = occurrences t L') as ->; [|done].
    unfold occurrences. by apply Permutation_length, filter_Permutation.
Qed.

Lemma occurrences_NoDup t L :
  NoDup L → occurrences t L = if decide (t ∈ L) then 1%nat else 0%nat.
Proof.
  unfold occurrences. induction 1 as [|x l Hx Hnd IHl]; [done|].
  rewrite filter_cons. destruct (decide (t = x)) as [->|Hne]; simpl.
  - rewrite decide_True by apply list_elem_of_here.
    rewrite IHl, decide_False; done.
  - rewrite IHl. destruct (decide (t ∈ l)) as [Hin|Hin].
    + rewrite decide_True; [done|by apply list_elem_of_further].
    + rewrite decide_False; [done|].
      by intros [?|?]%elem_of_cons.
Qed.

Lemma occurrences_visited t sets :
  occurrences t (visited sets) = holders t sets.
Proof.
  unfold holders, visited.
  induction sets as [|s sets IH]; [done|].
  rewrite bind_cons, filter_cons. unfold occurrences in *.
  rewrite filter_app, length_app, IH.
  pose proof (occurrences_NoDup t _ (NoDup_elements s)) as Hs.
  unfold occurrences in Hs. rewrite Hs.
  destruct (decide (t ∈ s)) as [Hin|Hin].
  - rewrite decide_True; [done|by apply elem_of_elements].
  - rewrite decide_False; [done|by rewrite elem_of_elements].
Qed.

Lemma holders_pos t sets : (0 < holders t sets)%nat ↔ ∃ s, s ∈ sets ∧ t ∈ s.
Proof.
  unfold holders. induction sets as [|s sets IH].
  - simpl. split; [lia|]. intros (s & Hs & _). by apply elem_of_nil in Hs.
  - rewrite filter_cons. destruct (decide (t ∈ s)); simpl.
    + split; [|lia]. intros _. exists s. split; [apply list_elem_of_here|done].
    + rewrite IH. split.
      * intros (s' & Hs' & Ht). exists s'.
        split; [by apply list_elem_of_further|done].
      * intros (s' & [->|Hs']%elem_of_cons & Ht); [done|]. by exists s'.
Qed.

Lemma holders_le t sets : (holders t sets ≤ length sets)%nat.
Proof. apply length_filter. Qed.

Lemma holders_lt t sets :
  (holders t sets < length sets)%nat ↔ ∃ s, s ∈ sets ∧ t ∉ s.
Proof.
  unfold holders. induction sets as [|s sets IH].
  - simpl. split; [lia|]. intros (s & Hs & _). by apply elem_of_nil in Hs.
  - rewrite filter_cons. pose proof (holders_le t sets) as Hle.
    unfold holders in Hle.
    destruct (decide (t ∈ s)); simpl.
    + rewrite <-Nat.succ_lt_mono, IH. split.
      * intros (s' & Hs' & Ht). exists s'.
        split; [by apply list_elem_of_further|done].
      * intros (s' & [->|Hs']%elem_of_cons & Ht); [done|]. by exists s'.
    + split; [|lia]. intros _. exists s. split; [apply list_elem_of_here|done].
Qed.
End scan.

Section union_difference.
Implicit Types (t : KeyScoreMember) (km : keyMember).
Implicit Types (sets : list tupleSet).

Lemma ksmOf_kmOf t : ksmOf (kmOf t) (Score t) = t.
Proof. by destruct t. Qed.

Lemma kmOf_ksmOf km b : kmOf (ksmOf km b) = km ∧ Score (ksmOf km b) = b.
Proof. by destruct km. Qed.

Lemma unionDifference_scan sets :
  unionDifference sets =
    (map_fold (λ km bestScore union, TupleSet.add (ksmOf km bestScore) union)
              ∅ (foldl scoreStep ∅ (visited sets)),
     map_fold (λ ksm count difference,
                 if count <? Z.of_nat (length sets)
                 then KeyMemberSet.add (kmOf ksm) difference
                 else difference)
              ∅ (foldl countStep ∅ (visited sets))).
Proof.
  unfold unionDifference.
  by rewrite foldl_scanSet_flat, foldl_scanTuple_split.
Qed.

(** The second loop turns [scores] into the union. *)
Lemma union_of_scores (scores : gmap keyMember Z) t :
  t ∈ map_fold (λ km bestScore union,
                  TupleSet.add (ksmOf km bestScore) union) ∅ scores
  ↔ scores !! kmOf t = Some (Score t).
Proof.
  revert t.
  apply (map_fold_weak_ind (λ (u : tupleSet) (m : gmap keyMember Z),
           ∀ t, t ∈ u ↔ m !! kmOf t = Some (Score t))).
  - intros t. rewrite lookup_empty. split; [|done].
    intros H. by apply not_elem_of_empty in H.
  - intros km b m u Hnone IH t. unfold TupleSet.add.
    rewrite elem_of_union, elem_of_singleton, IH.
    destruct (kmOf_ksmOf km b) as [Hk Hs].
    destruct (decide (km = kmOf t)) as [->|Hne].
    + rewrite lookup_insert_eq, Hnone. split.
      * intros [->|?]; [|done]. by rewrite Hs.
      * intros [= ->]. left. by rewrite ksmOf_kmOf.
    + rewrite lookup_insert_ne by done. split; [|by right].
      intros [->|?]; [|done]. by rewrite Hk in Hne.
Qed.

(** The third loop turns [counts] into the difference. *)
Lemma difference_of_counts (counts : gmap KeyScoreMember Z) n km :
  km ∈ map_fold (λ ksm count difference,
                   if count <? n
                   then KeyMemberSet.add (kmOf ksm) difference
                   else difference) ∅ counts
  ↔ ∃ t c, counts !! t = Some c ∧ c < n ∧ kmOf t = km.
Proof.
  revert km.
  apply (map_fold_weak_ind (λ (d : keyMemberSet) (m : gmap KeyScoreMember Z),
           ∀ km, km ∈ d ↔ ∃ t c, m !! t = Some c ∧ c < n ∧ kmOf t = km)).
  - intros km. split.
    + intros H. by apply not_elem_of_empty in H.
    + intros (t & c & H & _). by rewrite lookup_empty in H.
  - intros x c m d Hnone IH km.
    assert (Hrest : (∃ t c', <[x:=c]> m !! t = Some c' ∧ c' < n ∧ kmOf t = km)
              ↔ (c < n ∧ kmOf x = km) ∨ km ∈ d).
    { rewrite IH. split.
      - intros (t & c' & Hl & Hc & Hk).
        destruct (decide (x = t)) as [->|Hne].
        + rewrite lookup_insert_eq in Hl. injection Hl as ->. by left.
        + rewrite lookup_insert_ne in Hl by done. right. by exists t, c'.
      - intros [[Hc Hk]|(t & c' & Hl & Hc & Hk)].
        + exists x, c. by rewrite lookup_insert_eq.
        + exists t, c'. rewrite lookup_insert_ne; [done|]. congruence. }
    rewrite Hrest. destruct (Z.ltb_spec c n) as [Hlt|Hge].
    + unfold KeyMemberSet.add. rewrite elem_of_union, elem_of_singleton.
      split; (intros [?|?]; [left|by right]); [by subst|]. by destruct H.
    + split; [by right|]. intros [[? _]|?]; [lia|done].
Qed.

(** Membership in the union, in terms of the inputs. *)
Lemma elem_of_unionOf sets t :
  t ∈ unionOf sets ↔
    (∃ s, s ∈ sets ∧ t ∈ s)
    ∧ (∀ s t', s ∈ sets → t' ∈ s → kmOf t' = kmOf t → Score t' ≤ Score t).
Proof.
  unfold unionOf. rewrite unionDifference_scan. simpl.
  rewrite union_of_scores.
  pose proof (scores_spec (visited sets) (kmOf t)) as Hb.
  destruct (foldl scoreStep ∅ (visited sets) !! kmOf t) as [b|]; simpl in Hb.
  - destruct Hb as [(t0 & Ht0 & Hk0 & Hs0) Hub]. split.
    + intros [= ->]. split.
      * apply elem_of_visited.
        assert (t0 = t) as <-; [|done].
        destruct t0, t. unfold kmOf in Hk0. simpl in *. congruence.
      * intros s t' Hs Ht' Hk. apply Hub; [|done].
        apply elem_of_visited. eauto.
    + intros [Hin Hmax]. f_equal.
      apply elem_of_visited in Hin. apply elem_of_visited in Ht0.
      destruct Ht0 as (s0 & Hs0' & Ht0).
      specialize (Hub t Hin eq_refl).
      specialize (Hmax s0 t0 Hs0' Ht0 Hk0). lia.
  - split; [done|]. intros [Hin _]. apply elem_of_visited in Hin.
    by destruct (Hb t Hin).
Qed.

(** Membership in the difference, in terms of the inputs. *)
Lemma elem_of_differenceOf sets km :
  km ∈ differenceOf sets ↔
    ∃ t, kmOf t = km ∧ (∃ s, s ∈ sets ∧ t ∈ s) ∧ (∃ s, s ∈ sets ∧ t ∉ s).
Proof.
  unfold differenceOf. rewrite unionDifference_scan. simpl.
  rewrite difference_of_counts. split.
  - intros (t & c & Hl & Hc & Hk). exists t. split; [done|].
    rewrite counts_spec, occurrences_visited in Hl.
    case_decide as H0; [done|]. injection Hl as <-.
    rewrite <-holders_pos, <-holders_lt. lia.
  - intros (t & Hk & Hin & Hout).
    apply holders_pos in Hin. apply holders_lt in Hout.
    exists t, (Z.of_nat (holders t sets)).
    rewrite counts_spec, occurrences_visited.
    rewrite decide_False by lia. split; [done|]. split; [lia|done].
Qed.
End union_difference.

(** ** Claims about [unionDifference] *)

(** Scenario 4 of the specification. *)
Example union_merge_scenario :
  unionDifference
    [ {[ mkKSM "k" 1 "m1" ]};
      {[ mkKSM "k" 2 "m1"; mkKSM "k" 1 "m2" ]};
      {[ mkKSM "k" 1 "m2" ]} ]
  = ({[ mkKSM "k" 2 "m1"; mkKSM "k" 1 "m2" ]},
     {[ mkKM "k" "m1"; mkKM "k" "m2" ]}).
Proof. vm_compute. reflexivity. Qed.

Lemma union_has_every_pair sets t0 :
  (∃ s, s ∈ sets ∧ t0 ∈ s) → ∃ b, ksmOf (kmOf t0) b ∈ unionOf sets.
Proof.
  intros Hin. apply elem_of_visited in Hin.
  unfold unionOf. rewrite unionDifference_scan. simpl.
  pose proof (scores_spec (visited sets) (kmOf t0)) as Hb.
  destruct (foldl scoreStep ∅ (visited sets) !! kmOf t0) as [b|] eqn:Hl;
    simpl in Hb.
  - exists b. apply union_of_scores.
    destruct (kmOf_ksmOf (kmOf t0) b) as [-> ->]. done.
  - by destruct (Hb t0 Hin).
Qed.

Lemma union_single_per_pair sets t t' :
  t ∈ unionOf sets → t' ∈ unionOf sets → kmOf t = kmOf t' → t = t'.
Proof.
  unfold unionOf. rewrite unionDifference_scan. simpl.
  rewrite !union_of_scores. intros H1 H2 Hk. rewrite Hk in H1.
  rewrite H1 in H2. injection H2 as Hs.
  destruct t, t'. unfold kmOf in Hk. simpl in *. congruence.
Qed.

(** C2.  For every list of input sets and every (key, member) that
    appears in some input, the union holds exactly one tuple for that
    (key, member), and its score is the maximum observed for it: a score
    some input holds it with, and no input holds it with a greater one. *)
Theorem union_one_tuple_max_score (sets : list tupleSet) (k m : string) :
  (∃ s sc, s ∈ sets ∧ mkKSM k sc m ∈ s) →
  ∃ t, t ∈ unionOf sets ∧ Key t = k ∧ Member t = m
       ∧ (∀ t', t' ∈ unionOf sets → Key t' = k → Member t' = m → t' = t)
       ∧ (∃ s, s ∈ sets ∧ mkKSM k (Score t) m ∈ s)
       ∧ (∀ s sc, s ∈ sets → mkKSM k sc m ∈ s → sc ≤ Score t).
Proof.
  intros (s0 & sc0 & Hs0 & Ht0).
  destruct (union_has_every_pair sets (mkKSM k sc0 m)) as [b Hb]; [eauto|].
  change (ksmOf (kmOf (mkKSM k sc0 m)) b) with (mkKSM k b m) in Hb.
  exists (mkKSM k b m). simpl. split; [done|]. do 2 (split; [done|]).
  split; [|split].
  - intros t' Ht' Hk Hm. apply (union_single_per_pair sets); [done..|].
    destruct t'. simpl in *. by subst.
  - apply elem_of_unionOf in Hb as [Hin _]. done.
  - intros s sc Hs Ht. apply elem_of_unionOf in Hb as [_ Hmax].
    apply (Hmax s (mkKSM k sc m) Hs Ht). done.
Qed.

Lemma union_one_tuple_max_score_witness :
  let sets : list tupleSet :=
    [ {[ mkKSM "k" 1 "m" ]}; {[ mkKSM "k" 2 "m" ]} ] in
  ∃ t, t ∈ unionOf sets ∧ Key t = "k" ∧ Member t = "m"
       ∧ (∀ t', t' ∈ unionOf sets → Key t' = "k" → Member t' = "m" → t' = t)
       ∧ (∃ s, s ∈ sets ∧ mkKSM "k" (Score t) "m" ∈ s)
       ∧ (∀ s sc, s ∈ sets → mkKSM "k" sc "m" ∈ s → sc ≤ Score t).
Proof.
  intros sets. apply (union_one_tuple_max_score sets "k" "m").
  exists {[ mkKSM "k" 1 "m" ]}, 1. split.
  - apply list_elem_of_here.
  - by apply elem_of_singleton.
Defined.

Lemma differenceOf_partly_held (sets : list tupleSet) (km : keyMember) :
  km ∈ differenceOf sets ↔
    ∃ sc, (∃ s, s ∈ sets ∧ ksmOf km sc ∈ s)
          ∧ (∃ s, s ∈ sets ∧ ksmOf km sc ∉ s).
Proof.
  rewrite elem_of_differenceOf. split.
  - intros (t & <- & Hin & Hout). exists (Score t). by rewrite ksmOf_kmOf.
  - intros (sc & Hin & Hout). exists (ksmOf km sc).
    by destruct (kmOf_ksmOf km sc) as [-> _].
Qed.

(** Where no input holds a pair under two scores, the wording of the
    specification is recovered for the pairs that some input holds. *)
Lemma differenceOf_singleScored (sets : list tupleSet) (km : keyMember) :
  Forall singleScored sets →
  km ∈ differenceOf sets ↔
    (∃ s sc, s ∈ sets ∧ ksmOf km sc ∈ s) ∧ ¬ agreeEverywhere sets km.
Proof.
  intros Hss. rewrite differenceOf_partly_held. split.
  - intros (sc & (s1 & Hs1 & Hin) & (s2 & Hs2 & Hout)). split; [eauto|].
    intros (sc' & Hall). pose proof (Hall _ Hs1) as Hin'.
    rewrite Forall_forall in Hss.
    assert (ksmOf km sc = ksmOf km sc') as Heq.
    { apply (Hss s1 Hs1); [done..|].
      destruct (kmOf_ksmOf km sc) as [-> _].
      by destruct (kmOf_ksmOf km sc') as [-> _]. }
    rewrite Heq in Hout. by apply Hout, Hall.
  - intros [(s & sc & Hs & Hin) Hno]. exists sc. split; [eauto|].
    destruct (decide (Forall (λ s', ksmOf km sc ∈ s') sets)) as [Hall|Hnall].
    + destruct Hno. exists sc. by apply Forall_forall.
    + apply not_Forall_Exists in Hnall; [|apply _].
      apply Exists_exists in Hnall as (s' & Hs' & Hout). eauto.
Qed.

(** C3, as amended.  The difference contains a (key, member) pair
    exactly when some tuple of that pair is held by at least one input
    but not by every input.  Where no input holds a pair under two
    scores, this is: the pair is held by some input and does not appear
    with the identical score in every input. *)
Theorem difference_iff_partly_held (sets : list tupleSet) (km : keyMember) :
  (km ∈ differenceOf sets ↔
     ∃ sc, (∃ s, s ∈ sets ∧ ksmOf km sc ∈ s)
           ∧ (∃ s, s ∈ sets ∧ ksmOf km sc ∉ s))
  ∧ (Forall singleScored sets →
     (km ∈ differenceOf sets ↔
        (∃ s sc, s ∈ sets ∧ ksmOf km sc ∈ s) ∧ ¬ agreeEverywhere sets km)).
Proof.
  split.
  - apply differenceOf_partly_held.
  - apply differenceOf_singleScored.
Qed.

Lemma difference_iff_partly_held_witness :
  let sets : list tupleSet :=
    [ {[ mkKSM "k" 1 "m" ]}; {[ mkKSM "k" 2 "m" ]} ] in
  let km := mkKM "k" "m" in
  (km ∈ differenceOf sets ↔
     ∃ sc, (∃ s, s ∈ sets ∧ ksmOf km sc ∈ s)
           ∧ (∃ s, s ∈ sets ∧ ksmOf km sc ∉ s))
  ∧ (km ∈ differenceOf sets ↔
       (∃ s sc, s ∈ sets ∧ ksmOf km sc ∈ s) ∧ ¬ agreeEverywhere sets km).
Proof.
  intros sets km.
  destruct (difference_iff_partly_held sets km) as [Hheld Hsingle].
  split; [exact Hheld|]. apply Hsingle.
  repeat apply Forall_cons_2; [..|apply Forall_nil_2];
    intros t t' Ht Ht' _; apply elem_of_singleton in Ht, Ht'; congruence.
Defined.

(** C3, counterexample.  With the inputs
    {(k,1,m), (k,2,m)} and {(k,1,m)}: the pair (k,x) is missing from
    every input and appears nowhere with an identical score, yet it is
    not in the difference; and the pair (k,m) appears with the
    identical score 1 in every input, yet it is in the difference. *)
Lemma difference_claim_counterexample :
  let sets : list tupleSet :=
    [ {[ mkKSM "k" 1 "m"; mkKSM "k" 2 "m" ]}; {[ mkKSM "k" 1 "m" ]} ] in
  ((mkKM "k" "x" ∉ differenceOf sets)
   ∧ ¬ agreeEverywhere sets (mkKM "k" "x")
   ∧ missingOrDiffering sets (mkKM "k" "x"))
  ∧ ((mkKM "k" "m" ∈ differenceOf sets)
     ∧ agreeEverywhere sets (mkKM "k" "m"))
  ∧ ¬ (∀ km, km ∈ differenceOf sets ↔ ¬ agreeEverywhere sets km)
  ∧ ¬ (∀ km, km ∈ differenceOf sets ↔ missingOrDiffering sets km).
Proof.
  intros sets.
  assert (Hd : differenceOf sets = {[ mkKM "k" "m" ]})
    by (vm_compute; reflexivity).
  assert (Hx : mkKM "k" "x" ∉ differenceOf sets).
  { rewrite Hd. intros H%elem_of_singleton. discriminate. }
  assert (Hnx : ¬ agreeEverywhere sets (mkKM "k" "x")).
  { intros (sc & Hall).
    specialize (Hall {[ mkKSM "k" 1 "m" ]}
                  (list_elem_of_further _ _ _ (list_elem_of_here _ _))).
    apply elem_of_singleton in Hall. discriminate. }
  assert (Hmx : missingOrDiffering sets (mkKM "k" "x")).
  { left. exists {[ mkKSM "k" 1 "m" ]}. split.
    - apply list_elem_of_further, list_elem_of_here.
    - intros sc H%elem_of_singleton. discriminate. }
  assert (Hm : mkKM "k" "m" ∈ differenceOf sets).
  { rewrite Hd. by apply elem_of_singleton. }
  assert (Ham : agreeEverywhere sets (mkKM "k" "m")).
  { exists 1. intros s Hs. apply list_elem_of_In in Hs.
    destruct Hs as [<-|[<-|[]]].
    - apply elem_of_union. left. by apply elem_of_singleton.
    - by apply elem_of_singleton. }
  refine (conj (conj Hx (conj Hnx Hmx)) (conj (conj Hm Ham) (conj _ _))).
  - intros Hall. apply Hx, Hall, Hnx.
  - intros Hall. apply Hx, Hall, Hmx.
Qed.

(** C6, counterexample.  A tuple-set that holds one (key, member) under
    two scores is not reproduced by its union with itself. *)
Lemma union_idempotent_counterexample :
  let S : tupleSet := {[ mkKSM "k" 1 "m"; mkKSM "k" 2 "m" ]} in
  unionOf [S; S] = {[ mkKSM "k" 2 "m" ]} ∧ unionOf [S; S] ≠ S.
Proof.
  intros S.
  assert (Hu : unionOf [S; S] = {[ mkKSM "k" 2 "m" ]})
    by (vm_compute; reflexivity).
  split; [done|]. rewrite Hu. intros Heq.
  assert (Hin : mkKSM "k" 1 "m" ∈ S).
  { apply elem_of_union. left. by apply elem_of_singleton. }
  rewrite <-Heq in Hin. apply elem_of_singleton in Hin. discriminate.
Qed.

(** C6, as amended.  Permuting the list of inputs leaves the union
    unchanged, and for every tuple-set [S] that holds each (key, member)
    under at most one score, the union of [S] with itself is [S]. *)
Theorem union_commutative_idempotent (sets sets' : list tupleSet) (S : tupleSet) :
  (sets ≡ₚ sets' → unionOf sets = unionOf sets')
  ∧ (singleScored S → unionOf [S; S] = S).
Proof.
  split; [intros Hperm|intros Hss].
  - apply set_eq. intros t. rewrite !elem_of_unionOf.
    split; intros [(s & Hs & Ht) Hmax]; (split; [exists s; split; [|done]|]).
    + by rewrite <-Hperm.
    + intros s' t' Hs'. apply Hmax. by rewrite Hperm.
    + by rewrite Hperm.
    + intros s' t' Hs'. apply Hmax. by rewrite <-Hperm.
  - apply set_eq. intros t. rewrite elem_of_unionOf. split.
    + intros [(s & Hs & Ht) _]. apply list_elem_of_In in Hs.
      by destruct Hs as [<-|[<-|[]]].
    + intros Ht. split.
      * exists S. split; [apply list_elem_of_here|done].
      * intros s t' Hs Ht' Hk. apply list_elem_of_In in Hs.
        assert (s = S) as -> by (by destruct Hs as [<-|[<-|[]]]).
        by rewrite (Hss t' t Ht' Ht Hk).
Qed.

Lemma union_commutative_idempotent_witness :
  let A : tupleSet := {[ mkKSM "k" 1 "m1" ]} in
  let B : tupleSet := {[ mkKSM "k" 2 "m1"; mkKSM "k" 1 "m2" ]} in
  unionOf [A; B] = unionOf [B; A] ∧ unionOf [A; A] = A.
Proof.
  intros A B.
  destruct (union_commutative_idempotent [A; B] [B; A] A) as [Hcomm Hidem].
  split.
  - apply Hcomm, Permutation_swap.
  - apply Hidem. intros t t' Ht Ht' _.
    apply elem_of_singleton in Ht, Ht'. congruence.
Defined.

(** ** The canonical order *)

Section string_order.
Implicit Types a b c : string.

Lemma ascii_compare_lt_trans (x y z : Ascii.ascii) :
  Ascii.compare x y = Lt → Ascii.compare y z = Lt → Ascii.compare x z = Lt.
Proof.
  unfold Ascii.compare. rewrite !N.compare_lt_iff. apply N.lt_trans.
Qed.

Lemma string_compare_refl a : String.compare a a = Eq.
Proof.
  pose proof (String.compare_antisym a a) as H.
  by destruct (String.compare a a).
Qed.

Lemma string_compare_lt_trans a b c :
  String.compare a b = Lt → String.compare b c = Lt →
  String.compare a c = Lt.
Proof.
  revert b c. induction a as [|x a IH]; intros [|y b] [|z c]; simpl;
    try done.
  destruct (Ascii.compare x y) eqn:Hxy; try done;
    destruct (Ascii.compare y z) eqn:Hyz; try done; intros Hab Hbc.
  - apply Ascii.compare_eq_iff in Hxy, Hyz. subst.
    rewrite (proj2 (N.compare_eq_iff _ _) eq_refl : Ascii.compare z z = Eq).
    by apply (IH b c).
  - apply Ascii.compare_eq_iff in Hxy. subst. by rewrite Hyz.
  - apply Ascii.compare_eq_iff in Hyz. subst. by rewrite Hxy.
  - by rewrite (ascii_compare_lt_trans x y z).
Qed.

Lemma strLess_irrefl a : strLess a a = false.
Proof. unfold strLess, String.ltb. by rewrite string_compare_refl. Qed.

Lemma strLess_trans a b c :
  strLess a b = true → strLess b c = true → strLess a c = true.
Proof.
  unfold strLess, String.ltb. intros Hab Hbc.
  rewrite (string_compare_lt_trans a b c); [done|..].
  - by destruct (String.compare a b).
  - by destruct (String.compare b c).
Qed.

Lemma strLess_asym a b : strLess a b = true → strLess b a = false.
Proof.
  unfold strLess, String.ltb. rewrite (String.compare_antisym b a).
  by destruct (String.compare a b).
Qed.

Lemma strLess_connex a b :
  strLess a b = false → strLess b a = false → a = b.
Proof.
  unfold strLess, String.ltb. rewrite (String.compare_antisym b a).
  destruct (String.compare a b) eqn:Hc; try done.
  intros _ _. by apply String.compare_eq_iff.
Qed.
End string_order.

Section canonical_order.
Implicit Types a b c : KeyScoreMember.

(** [Less] spelled out: key ascending, then score descending, then
    member ascending. *)
Lemma Less_spec a b :
  Less a b = true ↔
    strLess (Key a) (Key b) = true
    ∨ (Key a = Key b
       ∧ (Score b < Score a
          ∨ (Score a = Score b
             ∧ strLess (Member a) (Member b) = true))).
Proof.
  unfold Less.
  destruct (String.eqb_spec (Key a) (Key b)) as [Hk|Hk]; simpl.
  - destruct (Z.eqb_spec (Score a) (Score b)) as [Hs|Hs]; simpl.
    + rewrite Hk, strLess_irrefl. split; [intros; right|]; [naive_solver|].
      intros [?|[_ [?|[_ ?]]]]; [done|lia|done].
    + rewrite Hk, strLess_irrefl, Z.gtb_ltb, Z.ltb_lt.
      split; [naive_solver|]. intros [?|[_ [?|[? ?]]]]; done.
  - split; [by left|]. by intros [?|[? _]].
Qed.

Lemma Less_irrefl a : Less a a = false.
Proof.
  apply not_true_is_false. rewrite Less_spec, !strLess_irrefl.
  intros [?|[_ [?|[_ ?]]]]; [done|lia|done].
Qed.

Lemma Less_trans a b c :
  Less a b = true → Less b c = true → Less a c = true.
Proof.
  rewrite !Less_spec.
  intros [H1|[Hk1 H1]] [H2|[Hk2 H2]].
  - left. by apply (strLess_trans _ (Key b)).
  - left. by rewrite <-Hk2.
  - left. by rewrite Hk1.
  - right. split; [congruence|].
    destruct H1 as [H1|[Hs1 H1]], H2 as [H2|[Hs2 H2]].
    + left. lia.
    + left. lia.
    + left. lia.
    + right. split; [lia|]. by apply (strLess_trans _ (Member b)).
Qed.

Lemma Less_connex a b : Less a b = false → Less b a = false → a = b.
Proof.
  intros Hab Hba.
  assert (Hnab : ¬ Less a b = true) by (by rewrite Hab).
  assert (Hnba : ¬ Less b a = true) by (by rewrite Hba).
  rewrite Less_spec in Hnab, Hnba.
  assert (Hk : Key a = Key b).
  { apply strLess_connex; apply not_true_is_false; naive_solver. }
  assert (Hs : Score a = Score b).
  { destruct (Z.lt_trichotomy (Score a) (Score b)) as [?|[?|?]];
      [|done|]; exfalso; naive_solver. }
  assert (Hm : Member a = Member b).
  { apply strLess_connex; apply not_true_is_false; naive_solver. }
  destruct a, b. simpl in *. by subst.
Qed.

Lemma Less_asym a b : Less a b = true → Less b a = false.
Proof.
  intros Hab. apply not_true_is_false. intros Hba.
  pose proof (Less_trans _ _ _ Hab Hba) as H.
  by rewrite Less_irrefl in H.
Qed.

#[global] Instance canonical_total : Total canonical.
Proof.
  intros a b. unfold canonical.
  destruct (Less b a) eqn:H; [right; by apply Less_asym | by left].
Qed.

#[global] Instance canonical_trans : Transitive canonical.
Proof.
  intros a b c. unfold canonical. intros Hba Hcb.
  apply not_true_is_false. intros Hca.
  destruct (Less b c) eqn:Hbc.
  - pose proof (Less_trans _ _ _ Hbc Hca) as H. congruence.
  - assert (b = c) as -> by (by apply Less_connex). congruence.
Qed.

#[global] Instance canonical_antisym : AntiSymm (=) canonical.
Proof. intros a b Hab Hba. by apply Less_connex. Qed.

#[global] Instance canonical_refl : Reflexive canonical.
Proof. intros a. apply Less_irrefl. Qed.

(** The sorted arrangement of a slice is unique: whatever [sort.Sort]
    does, its result is [sortKSM]. *)
Lemma sortKSM_unique (a sorted : list KeyScoreMember) :
  sorted ≡ₚ a → Sorted canonical sorted → sorted = sortKSM a.
Proof.
  intros Hperm Hsorted. apply (Sorted_unique canonical); [done|..].
  - apply Sorted_merge_sort, _.
  - unfold sortKSM. by rewrite merge_sort_Permutation.
Qed.

(** No element of a sorted slice is [Less] than an earlier one. *)
Lemma Sorted_canonical_lookup (l : list KeyScoreMember) (i j : nat) a b :
  Sorted canonical l → (i < j)%nat → l !! i = Some a → l !! j = Some b →
  Less b a = false.
Proof.
  intros Hs%Sorted_StronglySorted; [|apply _]. revert i j.
  induction Hs as [|x l Hs IH Hall]; intros i j Hij Hi Hj; [done|].
  destruct j as [|j]; [lia|]. destruct i as [|i]; simpl in *.
  - injection Hi as ->. rewrite Forall_forall in Hall.
    apply Hall. by eapply list_elem_of_lookup_2.
  - apply (IH i j); [lia|done..].
Qed.
End canonical_order.

(** ** Claim about [orderedLimitedSlice] *)

Lemma orderLimit_take (enum : list KeyScoreMember) (limit : Z) :
  0 ≤ limit →
  orderLimit enum limit = Some (take (Z.to_nat limit) (sortKSM enum)).
Proof.
  intros Hlim. unfold orderLimit, sliceTo.
  destruct (Z.gtb_spec (Z.of_nat (length (sortKSM enum))) limit) as [Hgt|Hle].
  - destruct (Z.ltb_spec limit 0); [lia|done].
  - rewrite take_ge; [done|lia].
Qed.

Lemma Sorted_canonical_strict (l : list KeyScoreMember) (i j : nat) x y :
  Sorted canonical l → NoDup l → (i < j)%nat →
  l !! i = Some x → l !! j = Some y → Less x y = true.
Proof.
  intros Hs Hnd Hij Hi Hj.
  pose proof (Sorted_canonical_lookup l i j x y Hs Hij Hi Hj) as Hyx.
  destruct (Less x y) eqn:Hxy; [done|].
  assert (x = y) as -> by (by apply Less_connex).
  pose proof (NoDup_lookup l i j y Hnd Hi Hj). lia.
Qed.

(** C9.  For every tuple-set [s] and every non-negative [limit],
    [orderedLimitedSlice] returns a slice of length at most [limit],
    whose elements stand in the canonical order (key ascending, score
    descending, member ascending), and which is the prefix of length
    [limit] of the sorted elements of [s]; this holds in whatever order
    the map is ranged over. *)
Theorem orderedLimitedSlice_sorted_prefix (s : tupleSet) (limit : Z) :
  0 ≤ limit →
  ∃ a,
    orderedLimitedSlice s limit = Some a
    ∧ (∀ enum, enum ≡ₚ elements s → orderLimit enum limit = Some a)
    ∧ Z.of_nat (length a) ≤ limit
    ∧ (∀ i j x y, (i < j)%nat → a !! i = Some x → a !! j = Some y →
                  Less x y = true)
    ∧ (∀ sorted, sorted ≡ₚ elements s → Sorted canonical sorted →
                 a = take (Z.to_nat limit) sorted ∧ a `prefix_of` sorted).
Proof.
  intros Hlim. set (srt := sortKSM (elements s)).
  assert (Hperm : srt ≡ₚ elements s) by apply merge_sort_Permutation.
  assert (Hsorted : Sorted canonical srt) by apply Sorted_merge_sort, _.
  assert (Hnd : NoDup srt) by (rewrite Hperm; apply NoDup_elements).
  exists (take (Z.to_nat limit) srt). split; [|split; [|split; [|split]]].
  - by apply orderLimit_take.
  - intros enum Henum. rewrite orderLimit_take by done. do 2 f_equal.
    symmetry. apply sortKSM_unique; [|done]. by rewrite Henum.
  - rewrite length_take. lia.
  - intros i j x y Hij Hi Hj.
    apply lookup_take_Some in Hi as [Hi _], Hj as [Hj _].
    by apply (Sorted_canonical_strict srt i j).
  - intros sorted Hp Hs.
    assert (sorted = srt) as -> by (by apply sortKSM_unique).
    split; [done|]. apply prefix_take.
Qed.

Lemma orderedLimitedSlice_sorted_prefix_witness :
  let s : tupleSet :=
    {[ mkKSM "k" 1 "a"; mkKSM "k" 3 "b"; mkKSM "j" 2 "c" ]} in
  ∃ a,
    orderedLimitedSlice s 2 = Some a
    ∧ (∀ enum, enum ≡ₚ elements s → orderLimit enum 2 = Some a)
    ∧ Z.of_nat (length a) ≤ 2
    ∧ (∀ i j x y, (i < j)%nat → a !! i = Some x → a !! j = Some y →
                  Less x y = true)
    ∧ (∀ sorted, sorted ≡ₚ elements s → Sorted canonical sorted →
                 a = take (Z.to_nat 2) sorted ∧ a `prefix_of` sorted).
Proof.
  intros s. apply (orderedLimitedSlice_sorted_prefix s 2). lia.
Defined.

(** The slice the witness speaks of. *)
Example orderedLimitedSlice_example :
  orderedLimitedSlice
    {[ mkKSM "k" 1 "a"; mkKSM "k" 3 "b"; mkKSM "j" 2 "c" ]} 2
  = Some [ mkKSM "j" 2 "c"; mkKSM "k" 3 "b" ].
Proof. vm_compute. reflexivity. Qed.

(** A negative limit makes the slice expression panic. *)
Example orderedLimitedSlice_negative :
  orderedLimitedSlice {[ mkKSM "k" 1 "a" ]} (-1) = None.
Proof. vm_compute. reflexivity. Qed.

(** ** Channels *)

Section deliver.
Context {A : Type}.
Implicit Types (sent : list A) (arrival : list nat).

Lemma deliver_shift x sent arrival :
  Farm.deliver (S <$> arrival) (x :: sent) = Farm.deliver arrival sent.
Proof.
  unfold Farm.deliver. induction arrival as [|i l IHl]; [done|].
  simpl. destruct (sent !! i); [f_equal|]; exact IHl.
Qed.

Lemma deliver_in_order sent :
  Farm.deliver (seq 0 (length sent)) sent = sent.
Proof.
  induction sent as [|x sent IH]; [done|].
  simpl. rewrite <-fmap_S_seq. unfold Farm.deliver at 1. simpl.
  f_equal. fold (Farm.deliver (S <$> seq 0 (length sent)) (x :: sent)).
  by rewrite deliver_shift.
Qed.

(** Every goroutine sends once, so the channel delivers what was sent,
    rearranged. *)
Lemma deliver_Permutation arrival sent :
  arrival ≡ₚ seq 0 (length sent) → Farm.deliver arrival sent ≡ₚ sent.
Proof.
  intros Hp. rewrite <-(deliver_in_order sent) at 2.
  unfold Farm.deliver. by rewrite Hp.
Qed.

Lemma deliver_length arrival sent :
  arrival ≡ₚ seq 0 (length sent) →
  length (Farm.deliver arrival sent) = length sent.
Proof. intros Hp. by rewrite (deliver_Permutation _ _ Hp). Qed.
End deliver.

(** ** The write coordinator *)

Section write.
Implicit Types (chan : list error) (errors : list string).

Lemma replies_split chan :
  Z.of_nat (length chan)
  = acknowledgements chan + Z.of_nat (length (errorStrings chan)).
Proof.
  unfold acknowledgements, errorStrings.
  induction chan as [|[e|] chan IH]; [done|..].
  - rewrite filter_cons, decide_False by done.
    unfold omap in *. simpl in *. lia.
  - rewrite filter_cons, decide_True by done.
    unfold omap in *. simpl in *. lia.
Qed.

Lemma acknowledgements_Permutation chan chan' :
  chan ≡ₚ chan' → acknowledgements chan = acknowledgements chan'.
Proof. unfold acknowledgements. by intros ->. Qed.

Lemma acknowledgements_take chan j :
  acknowledgements (take j chan) ≤ acknowledgements chan.
Proof.
  unfold acknowledgements. rewrite <-(take_drop j chan) at 2.
  rewrite filter_app, length_app. lia.
Qed.

Lemma acknowledgements_nonneg chan : 0 ≤ acknowledgements chan.
Proof. unfold acknowledgements. lia. Qed.

Lemma acknowledgements_le_length chan :
  acknowledgements chan ≤ Z.of_nat (length chan).
Proof. unfold acknowledgements. pose proof (length_filter (λ e : error, e = None) chan). lia. Qed.

Lemma errorStrings_snoc_take chan j e :
  chan !! j = Some e →
  errorStrings (take (S j) chan)
  = errorStrings (take j chan) ++ match e with Some s => [s] | None => [] end.
Proof.
  intros Hj. rewrite (take_S_r _ _ _ Hj). unfold errorStrings.
  rewrite omap_app. simpl. by destruct e.
Qed.

Lemma quorumAfter_acks need chan j :
  (j ≤ length chan)%nat →
  quorumAfter need chan j = true ↔ need ≤ acknowledgements (take j chan).
Proof.
  intros Hj. unfold quorumAfter, Farm.haveQuorum.
  pose proof (replies_split (take j chan)) as Hsplit.
  rewrite length_take in Hsplit.
  rewrite Z.geb_le. lia.
Qed.

(** The gather loop started after [k] replies stops after [j ≥ k]
    replies: at the first [j > k] at which quorum holds, or else when
    all [k + n] replies are in. *)
Lemma gather_from need chan n k :
  length chan = (k + n)%nat →
  ∃ j, (k ≤ j ≤ k + n)%nat
       ∧ Farm.gather need n (drop k chan)
           (errorStrings (take k chan)) (Z.of_nat k)
         = Some (errorStrings (take j chan), Z.of_nat j)
       ∧ (∀ j', (k < j' < j)%nat → quorumAfter need chan j' = false)
       ∧ ((j < k + n)%nat → quorumAfter need chan j = true)
       ∧ ((0 < n)%nat → (k < j)%nat).
Proof.
  revert k. induction n as [|n IH]; intros k Hlen.
  - exists k. simpl. repeat split; try lia; done.
  - assert (is_Some (chan !! k)) as [e He].
    { apply lookup_lt_is_Some. lia. }
    simpl. rewrite (drop_S _ _ _ He).
    assert (Herrs : match e with
                    | Some s => errorStrings (take k chan) ++ [s]
                    | None => errorStrings (take k chan)
                    end = errorStrings (take (S k) chan)).
    { rewrite (errorStrings_snoc_take _ _ _ He).
      destruct e; [done|by rewrite app_nil_r]. }
    rewrite Herrs.
    replace (Z.of_nat k + 1) with (Z.of_nat (S k)) by lia.
    fold (quorumAfter need chan (S k)).
    destruct (quorumAfter need chan (S k)) eqn:Hq.
    + exists (S k). repeat split; try lia; done.
    + destruct (IH (S k)) as (j & Hj & Hg & Hbefore & Hbreak & _); [lia|].
      exists j. rewrite Hg. repeat split; try lia; try done.
      * intros j' Hj'. destruct (decide (j' = S k)) as [->|]; [done|].
        apply Hbefore. lia.
      * intros. apply Hbreak. lia.
Qed.
End write.

Section strings.
Implicit Types s e : string.

Lemma append_assoc s1 s2 s3 :
  String.append (String.append s1 s2) s3
  = String.append s1 (String.append s2 s3).
Proof.
  induction s1 as [|c s1 IH]; [done|].
  change (String c (String.append (String.append s1 s2) s3)
          = String c (String.append s1 (String.append s2 s3))).
  by f_equal.
Qed.

Lemma append_empty_r s : String.append s "" = s.
Proof.
  induction s as [|c s IH]; [done|].
  change (String c (String.append s "") = String c s). by f_equal.
Qed.

Lemma contains_self e : contains e e.
Proof.
  exists "", "". change (e = String.append e ""). by rewrite append_empty_r.
Qed.

Lemma contains_append_l s e pre : contains s e → contains (String.append pre s) e.
Proof.
  intros (p & q & ->). exists (String.append pre p), q.
  by rewrite append_assoc.
Qed.

Lemma contains_append_r s e post : contains s e → contains (String.append s post) e.
Proof.
  intros (p & q & ->). exists p, (String.append q post).
  by rewrite !append_assoc.
Qed.

(** [strings.Join] keeps every joined string. *)
Lemma concat_contains sep (l : list string) e :
  e ∈ l → contains (String.concat sep l) e.
Proof.
  induction l as [|x l IH]; intros Hin; [by apply elem_of_nil in Hin|].
  apply elem_of_cons in Hin as [->|Hin].
  - destruct l as [|y l]; simpl; [apply contains_self|].
    apply contains_append_r, contains_self.
  - destruct l as [|y l]; [by apply elem_of_nil in Hin|].
    change (String.concat sep (x :: y :: l))
      with (String.append x (String.append sep (String.concat sep (y :: l)))).
    by apply contains_append_l, contains_append_l, IH.
Qed.

Lemma noQuorum_contains (errors : list string) e :
  e ∈ errors → contains (Farm.noQuorum errors) e.
Proof.
  intros Hin. unfold Farm.noQuorum.
  by apply contains_append_l, contains_append_r, concat_contains.
Qed.
End strings.

(** What [write] does on a non-empty batch when every cluster replies:
    it stops after [j] replies, the first [j ≥ 1] at which quorum holds
    or else the last one, and reports from the quorum test at [j]. *)
Lemma write_outcome (f : Farm.t) (tuples : list KeyScoreMember)
    (action : Cluster.t → list KeyScoreMember → error)
    (instr : writeInstrumentation) (arrival : list nat) :
  tuples ≠ [] →
  arrival ≡ₚ seq 0 (length (Farm.clusters f)) →
  ∃ out j,
    Farm.write f tuples action instr arrival = Some out
    ∧ received out = Z.of_nat j
    ∧ (j ≤ length (Farm.clusters f))%nat
    ∧ ((0 < length (Farm.clusters f))%nat → (0 < j)%nat)
    ∧ (∀ j', (0 < j' < j)%nat →
         quorumAfter (Farm.writeQuorum f)
           (Farm.deliver arrival (Farm.scatter f action tuples)) j' = false)
    ∧ (if quorumAfter (Farm.writeQuorum f)
            (Farm.deliver arrival (Farm.scatter f action tuples)) j
       then returned out = None
            ∧ writeEvents out
              = [call instr; recordCount instr (Z.of_nat (length tuples));
                 callDuration instr; recordDuration instr]
       else j = length (Farm.clusters f)
            ∧ returned out
              = Some (Farm.noQuorum
                        (errorStrings
                           (Farm.deliver arrival (Farm.scatter f action tuples))))
            ∧ writeEvents out
              = [call instr; recordCount instr (Z.of_nat (length tuples));
                 quorumFailure instr;
                 callDuration instr; recordDuration instr]).
Proof.
  intros Hne Harr.
  set (chan := Farm.deliver arrival (Farm.scatter f action tuples)).
  set (n := length (Farm.clusters f)) in *.
  assert (Hlen : length chan = (0 + n)%nat).
  { unfold chan. rewrite deliver_length; unfold Farm.scatter;
      rewrite length_map; done. }
  destruct (gather_from (Farm.writeQuorum f) chan n 0 Hlen)
    as (j & Hj & Hg & Hbefore & Hbreak & Hpos).
  rewrite drop_0 in Hg. change (errorStrings (take 0 chan)) with (@nil string) in Hg.
  unfold Farm.write.
  destruct (Z.leb_spec (Z.of_nat (length tuples)) 0) as [Hle|_].
  { destruct tuples; [done|simpl in Hle; lia]. }
  fold chan. fold n. change (Z.of_nat 0) with 0 in Hg. rewrite Hg.
  fold (quorumAfter (Farm.writeQuorum f) chan j).
  destruct (quorumAfter (Farm.writeQuorum f) chan j) eqn:Hq; simpl.
  - eexists _, j. split; [done|]. simpl. rewrite ?Hq.
    repeat split; try lia; done.
  - assert (j = n) as ->.
    { destruct (decide (j < n)%nat) as [Hlt|?]; [|lia].
      by specialize (Hbreak ltac:(lia)). }
    rewrite take_ge by lia.
    eexists _, n. split; [done|]. simpl. rewrite ?Hq.
    repeat split; try lia; done.
Qed.

(** ** Claims about the write coordinator *)

Lemma write_verdict f tuples action instr arrival :
  tuples ≠ [] →
  arrival ≡ₚ seq 0 (length (Farm.clusters f)) →
  ∃ out, Farm.write f tuples action instr arrival = Some out
         ∧ quorumVerdict f action tuples arrival out
         ∧ reportsLate f action tuples arrival out
         ∧ (returned out ≠ None → quorumFailure instr ∈ writeEvents out).
Proof.
  intros Hne Harr.
  destruct (write_outcome f tuples action instr arrival Hne Harr)
    as (out & j & Hw & Hrecv & Hj & Hpos & Hbefore & Hfinal).
  exists out. split; [done|].
  unfold quorumVerdict, reportsLate. rewrite Hrecv, Nat2Z.id.
  set (sent := Farm.scatter f action tuples) in *.
  set (chan := Farm.deliver arrival sent) in *.
  assert (Hslen : length sent = length (Farm.clusters f)).
  { unfold sent, Farm.scatter. by rewrite length_map. }
  assert (Hperm : chan ≡ₚ sent).
  { apply deliver_Permutation. by rewrite Hslen. }
  assert (Hlen : length chan = length (Farm.clusters f)).
  { by rewrite Hperm. }
  assert (Hacks : acknowledgements chan = acknowledgements sent).
  { by apply acknowledgements_Permutation. }
  assert (Hq : ∀ j', (j' ≤ j)%nat →
             quorumAfter (Farm.writeQuorum f) chan j' = true
             ↔ Farm.writeQuorum f ≤ acknowledgements (take j' chan)).
  { intros j' Hj'. apply quorumAfter_acks. lia. }
  destruct (quorumAfter (Farm.writeQuorum f) chan j) eqn:Hqj.
  - destruct Hfinal as [Hret Hev].
    apply Hq in Hqj; [|lia].
    pose proof (acknowledgements_take chan j).
    rewrite Hret. split; [split|split; [split|]].
    + split; [lia|done].
    + done.
    + done.
    + intros _. split; [lia|]. intros j' Hj'. specialize (Hbefore j' Hj').
      destruct (Z.lt_ge_cases (acknowledgements (take j' chan))
                              (Farm.writeQuorum f)) as [?|Hge]; [done|].
      apply Hq in Hge; [congruence|lia].
    + done.
  - destruct Hfinal as (-> & Hret & Hev).
    assert (Hno : acknowledgements sent < Farm.writeQuorum f).
    { rewrite <-Hacks, <-(take_ge chan (length (Farm.clusters f))) by lia.
      destruct (Z.lt_ge_cases
                  (acknowledgements (take (length (Farm.clusters f)) chan))
                  (Farm.writeQuorum f)) as [?|Hge]; [done|].
      apply Hq in Hge; [congruence|lia]. }
    rewrite Hret, take_ge by lia. split; [split|split; [split|]].
    + split; [done|lia].
    + intros msg [= <-]. split; [done|]. intros e. apply noQuorum_contains.
    + intros _. split; [done|lia].
    + done.
    + intros _. rewrite Hev. do 2 apply list_elem_of_further.
      apply list_elem_of_here.
Qed.

Lemma acknowledgements_scatter f action tuples :
  acknowledgements (Farm.scatter f action tuples)
  = acknowledging f action tuples.
Proof.
  unfold acknowledgements, acknowledging, Farm.scatter. f_equal.
  induction (Farm.clusters f) as [|c l IH]; [done|].
  simpl. rewrite !filter_cons.
  destruct (decide (action c tuples = None)); simpl; by rewrite IH.
Qed.

Lemma errorStrings_deliver_scatter f action tuples arrival :
  errorStrings (Farm.deliver arrival (Farm.scatter f action tuples))
  = errorsInArrival f action tuples arrival.
Proof.
  unfold errorStrings, errorsInArrival, Farm.deliver, Farm.scatter.
  induction arrival as [|i arrival IH]; [done|].
  assert (Hi : map (λ c, action c tuples) (Farm.clusters f) !! i
               = (λ c, action c tuples) <$> Farm.clusters f !! i)
    by apply list_lookup_fmap.
  simpl. rewrite Hi.
  destruct (Farm.clusters f !! i) as [c|]; simpl; [|exact IH].
  destruct (action c tuples); simpl; [f_equal|]; exact IH.
Qed.

Lemma write_verdict_of_clusters f tuples action instr arrival :
  tuples ≠ [] →
  arrival ≡ₚ seq 0 (length (Farm.clusters f)) →
  ∃ out, Farm.write f tuples action instr arrival = Some out
         ∧ verdictOfClusters f action tuples arrival out.
Proof.
  intros Hne Harr.
  destruct (write_verdict f tuples action instr arrival Hne Harr)
    as (out & Hw & [Hiff Hmsg] & [Hlate _] & _).
  exists out. split; [done|]. split.
  - by rewrite Hiff, acknowledgements_scatter.
  - intros msg Hret.
    destruct Hlate as [Hrecv _]; [congruence|].
    destruct (Hmsg msg Hret) as [-> _]. rewrite Hrecv, Nat2Z.id.
    assert (Hlen : length (Farm.deliver arrival (Farm.scatter f action tuples))
                   = length (Farm.clusters f)).
    { rewrite deliver_length; unfold Farm.scatter; rewrite length_map; done. }
    rewrite take_ge by lia. rewrite errorStrings_deliver_scatter.
    split; [done|]. split; [done|].
    intros c e Hc He. apply noQuorum_contains.
    rewrite <-errorStrings_deliver_scatter. unfold errorStrings.
    apply list_elem_of_omap. exists (Some e). split; [|done].
    rewrite deliver_Permutation
      by (unfold Farm.scatter; by rewrite length_map).
    unfold Farm.scatter. apply list_elem_of_fmap. by exists c.
Qed.

(** C1.  For every non-empty batch, [Insert], and likewise [Delete],
    returns success if and only if at least [writeQuorum] clusters of
    the farm acknowledge the batch; and when it returns failure, every
    reply has been received and the error is the single message
    "no quorum (...)" that joins the error strings of the failing
    clusters in the order of their replies, and so contains the error
    string of every cluster that failed. *)
Theorem write_success_iff_quorum (f : Farm.t) (tuples : list KeyScoreMember)
    (arrival : list nat) :
  tuples ≠ [] →
  arrival ≡ₚ seq 0 (length (Farm.clusters f)) →
  (∃ out, Farm.Insert f tuples arrival = Some out
          ∧ verdictOfClusters f Cluster.Insert tuples arrival out)
  ∧ (∃ out, Farm.Delete f tuples arrival = Some out
            ∧ verdictOfClusters f Cluster.Delete tuples arrival out).
Proof.
  intros Hne Harr. split.
  - apply (write_verdict_of_clusters f tuples (λ c a, Cluster.Insert c a)
             insertInstrumentation arrival Hne Harr).
  - apply (write_verdict_of_clusters f tuples (λ c a, Cluster.Delete c a)
             deleteInstrumentation arrival Hne Harr).
Qed.

Lemma write_success_iff_quorum_witness :
  let f := Farm.New [reliable; failing "e1"; failing "e2"] 2 in
  let tuples := [mkKSM "k" 1 "m"] in
  let arrival := [1; 0; 2]%nat in
  (∃ out, Farm.Insert f tuples arrival = Some out
          ∧ verdictOfClusters f Cluster.Insert tuples arrival out)
  ∧ (∃ out, Farm.Delete f tuples arrival = Some out
            ∧ verdictOfClusters f Cluster.Delete tuples arrival out).
Proof.
  intros f tuples arrival. apply (write_success_iff_quorum f tuples arrival).
  - done.
  - apply Permutation_swap.
Defined.

(** Scenarios 1 and 2 of the specification: three clusters, quorum 2. *)
Example quorum_success_scenario :
  Farm.Insert (Farm.New [reliable; reliable; failing "down"] 2)
    [mkKSM "k" 1 "m"] [2; 0; 1]%nat
  = Some {| returned := None; received := 3;
            writeEvents := [InsertCall; InsertRecordCount 1;
                            InsertCallDuration; InsertRecordDuration] |}.
Proof. reflexivity. Qed.

Example quorum_failure_scenario :
  Farm.Insert (Farm.New [reliable; failing "e1"; failing "e2"] 2)
    [mkKSM "k" 1 "m"] [0; 1; 2]%nat
  = Some {| returned := Some "no quorum (e1; e2)"; received := 3;
            writeEvents := [InsertCall; InsertRecordCount 1;
                            InsertQuorumFailure;
                            InsertCallDuration; InsertRecordDuration] |}.
Proof. reflexivity. Qed.

(** C5, counterexample.  Three clusters, quorum 2, and the two failing
    clusters reply first: after the second reply successes + pending is
    0 + 1 < 2, so quorum is unreachable, and yet [Insert] goes on to
    receive the third reply before it reports the failure. *)
Lemma write_fail_fast_counterexample :
  let f := Farm.New [reliable; failing "e1"; failing "e2"] 2 in
  let tuples := [mkKSM "k" 1 "m"] in
  let arrival := [1; 2; 0]%nat in
  let chan := Farm.deliver arrival (Farm.scatter f Cluster.Insert tuples) in
  chan = [Some "e1"; Some "e2"; None]
  ∧ unreachableAfter (Farm.writeQuorum f) chan 1 = false
  ∧ unreachableAfter (Farm.writeQuorum f) chan 2 = true
  ∧ ∃ out, Farm.Insert f tuples arrival = Some out
           ∧ returned out = Some "no quorum (e1; e2)"
           ∧ received out = 3
           ∧ received out ≠ 2.
Proof.
  cbv zeta. split; [reflexivity|]. split; [reflexivity|].
  split; [reflexivity|]. eexists. split; [reflexivity|].
  simpl. repeat split; done.
Qed.

(** C5, as amended.  For every non-empty batch, [Insert], and likewise
    [Delete], returns failure only once the replies of all clusters have
    been received, and then fewer than [writeQuorum] of them are
    acknowledgements; success is returned at the first reply at which
    the acknowledgements received reach [writeQuorum]. *)
Theorem write_failure_after_all_replies (f : Farm.t)
    (tuples : list KeyScoreMember) (arrival : list nat) :
  tuples ≠ [] →
  arrival ≡ₚ seq 0 (length (Farm.clusters f)) →
  (∃ out, Farm.Insert f tuples arrival = Some out
          ∧ reportsLate f Cluster.Insert tuples arrival out)
  ∧ (∃ out, Farm.Delete f tuples arrival = Some out
            ∧ reportsLate f Cluster.Delete tuples arrival out).
Proof.
  intros Hne Harr. split.
  - destruct (write_verdict f tuples (λ c a, Cluster.Insert c a)
                insertInstrumentation arrival Hne Harr) as (out & ? & _ & ? & _).
    by exists out.
  - destruct (write_verdict f tuples (λ c a, Cluster.Delete c a)
                deleteInstrumentation arrival Hne Harr) as (out & ? & _ & ? & _).
    by exists out.
Qed.

Lemma write_failure_after_all_replies_witness :
  let f := Farm.New [reliable; failing "e1"; failing "e2"] 2 in
  let tuples := [mkKSM "k" 1 "m"] in
  let arrival := [1; 2; 0]%nat in
  (∃ out, Farm.Insert f tuples arrival = Some out
          ∧ reportsLate f Cluster.Insert tuples arrival out)
  ∧ (∃ out, Farm.Delete f tuples arrival = Some out
            ∧ reportsLate f Cluster.Delete tuples arrival out).
Proof.
  intros f tuples arrival.
  apply (write_failure_after_all_replies f tuples arrival).
  - done.
  - change ([1; 2; 0]%nat ≡ₚ [0; 1; 2]%nat).
    symmetry. apply (Permutation_cons_append [1; 2]%nat 0%nat).
Defined.

(** C10.  [New] stores [writeQuorum] as given.  With a [writeQuorum]
    above the number of clusters, every non-empty [Insert] or [Delete]
    returns the quorum-failure error, whatever the clusters reply; with
    a [writeQuorum] of zero or less, every non-empty [Insert] or
    [Delete] returns success, and it does so right after the first
    reply, whatever that reply is. *)
Theorem unvalidated_writeQuorum (clusters : list Cluster.t) (writeQuorum : Z)
    (tuples : list KeyScoreMember) (arrival : list nat) :
  tuples ≠ [] →
  arrival ≡ₚ seq 0 (length clusters) →
  let f := Farm.New clusters writeQuorum in
  Farm.writeQuorum f = writeQuorum
  ∧ (Z.of_nat (length clusters) < writeQuorum →
     failsQuorum (Farm.Insert f tuples arrival) InsertQuorumFailure
     ∧ failsQuorum (Farm.Delete f tuples arrival) DeleteQuorumFailure)
  ∧ (writeQuorum ≤ 0 →
     succeedsAtFirstReply (Farm.Insert f tuples arrival) (length clusters)
     ∧ succeedsAtFirstReply (Farm.Delete f tuples arrival) (length clusters)).
Proof.
  intros Hne Harr f. split; [done|].
  assert (Hgen : ∀ action instr,
            ∃ out, Farm.write f tuples action instr arrival = Some out
              ∧ (Z.of_nat (length clusters) < writeQuorum →
                 ∃ errors, returned out = Some (Farm.noQuorum errors)
                           ∧ quorumFailure instr ∈ writeEvents out)
              ∧ (writeQuorum ≤ 0 →
                 returned out = None
                 ∧ received out = Z.min 1 (Z.of_nat (length clusters)))).
  { intros action instr.
    destruct (write_outcome f tuples action instr arrival Hne Harr)
      as (out & j & Hw & Hrecv & Hj & Hpos & Hbefore & Hfinal).
    change (Farm.writeQuorum f) with writeQuorum in *.
    change (Farm.clusters f) with clusters in *.
    set (chan := Farm.deliver arrival (Farm.scatter f action tuples)) in *.
    assert (Hlen : length chan = length clusters).
    { unfold chan. rewrite deliver_length; unfold Farm.scatter;
        rewrite length_map; done. }
    assert (Hq : ∀ j', (j' ≤ length clusters)%nat →
               quorumAfter writeQuorum chan j' = true
               ↔ writeQuorum ≤ acknowledgements (take j' chan)).
    { intros j' Hj'. apply quorumAfter_acks. lia. }
    exists out. split; [done|]. split.
    - intros Hbig.
      destruct (quorumAfter writeQuorum chan j) eqn:Hqj.
      + apply Hq in Hqj; [|done].
        pose proof (acknowledgements_le_length (take j chan)) as Hle.
        rewrite length_take in Hle. lia.
      + destruct Hfinal as (_ & Hret & Hev). eexists. split; [done|].
        rewrite Hev. do 2 apply list_elem_of_further. apply list_elem_of_here.
    - intros Hsmall.
      assert (Hall : ∀ j', (j' ≤ length clusters)%nat →
                quorumAfter writeQuorum chan j' = true).
      { intros j' Hj'. apply Hq; [done|].
        pose proof (acknowledgements_nonneg (take j' chan)). lia. }
      rewrite (Hall j Hj) in Hfinal. destruct Hfinal as [Hret _].
      split; [done|]. rewrite Hrecv.
      destruct (decide (1 < j)%nat) as [Hlt|Hge].
      + specialize (Hbefore 1%nat ltac:(lia)).
        rewrite Hall in Hbefore by lia. done.
      + destruct (length clusters) as [|n]; lia. }
  destruct (Hgen (λ c a, Cluster.Insert c a) insertInstrumentation)
    as (outI & HwI & HfailI & HokI).
  destruct (Hgen (λ c a, Cluster.Delete c a) deleteInstrumentation)
    as (outD & HwD & HfailD & HokD).
  split.
  - intros Hbig.
    destruct (HfailI Hbig) as (eI & ? & ?), (HfailD Hbig) as (eD & ? & ?).
    split; [by exists outI, eI|by exists outD, eD].
  - intros Hsmall.
    destruct (HokI Hsmall) as [? ?], (HokD Hsmall) as [? ?].
    split; [by exists outI|by exists outD].
Qed.

Lemma unvalidated_writeQuorum_witness :
  let tuples := [mkKSM "k" 1 "m"] in
  failsQuorum (Farm.Insert (Farm.New [reliable; reliable] 3) tuples [0; 1]%nat)
              InsertQuorumFailure
  ∧ succeedsAtFirstReply
      (Farm.Delete (Farm.New [failing "e"; reliable] 0) tuples [0; 1]%nat) 2.
Proof.
  intros tuples. split.
  - apply (unvalidated_writeQuorum [reliable; reliable] 3 tuples [0; 1]%nat);
      [done|reflexivity|simpl; lia].
  - apply (unvalidated_writeQuorum [failing "e"; reliable] 0 tuples [0; 1]%nat);
      [done|reflexivity|simpl; lia].
Defined.

(** With a quorum above the number of clusters even unanimous
    acknowledgement fails; with quorum zero a lone error succeeds. *)
Example quorum_above_clusters :
  Farm.Insert (Farm.New [reliable; reliable] 3) [mkKSM "k" 1 "m"] [0; 1]%nat
  = Some {| returned := Some "no quorum ()"; received := 2;
            writeEvents := [InsertCall; InsertRecordCount 1;
                            InsertQuorumFailure;
                            InsertCallDuration; InsertRecordDuration] |}.
Proof. reflexivity. Qed.

Example quorum_zero :
  Farm.Delete (Farm.New [failing "e"; reliable] 0) [mkKSM "k" 1 "m"] [0; 1]%nat
  = Some {| returned := None; received := 1;
            writeEvents := [DeleteCall; DeleteRecordCount 1;
                            DeleteCallDuration; DeleteRecordDuration] |}.
Proof. reflexivity. Qed.

(** ** The repair coordinator *)

Section gather.
Implicit Types (st : gatherState) (r resp : scoreResponseTuple).
Implicit Types (seen chan : list scoreResponseTuple).

Lemma failedQueries_snoc seen resp :
  failedQueries (seen ++ [resp])
  = (failedQueries seen + if err resp is Some _ then 1 else 0)%nat.
Proof.
  unfold failedQueries. rewrite filter_app, length_app, filter_cons.
  destruct (err resp); case_decide; simpl; done.
Qed.

Lemma gatherInv_init : gatherInv Farm.gatherInit [].
Proof.
  split; simpl; try done.
  - intros r Hr. by apply elem_of_nil in Hr.
  - by left.
  - intros r Hr. by apply elem_of_nil in Hr.
Qed.

Lemma gatherInv_step st seen resp :
  gatherInv st seen → gatherInv (Farm.gatherStep st resp) (seen ++ [resp]).
Proof.
  intros [Hnn Hbd Hatt Hsound Hcompl Hfail].
  unfold Farm.gatherStep. destruct (err resp) as [e|] eqn:Herr.
  - (* the query failed *)
    split; simpl; try done.
    + intros r [Hr| ->%list_elem_of_singleton]%elem_of_app He;
        [by apply Hbd|congruence].
    + destruct Hatt as [?|(r & Hr & Hag)]; [by left|right].
      exists r. split; [by apply elem_of_app; left|done].
    + intros i b Hib. destruct (Hsound i b Hib) as [-> (r & Hr & Hc & Hag)].
      split; [done|]. exists r. split; [by apply elem_of_app; left|done].
    + intros r [Hr| ->%list_elem_of_singleton]%elem_of_app Hag;
        [by apply Hcompl|]. destruct Hag as [He _]. congruence.
    + rewrite failedQueries_snoc, Herr, Hfail.
      by rewrite replicate_add.
  - destruct (Z.eqb_spec (score resp) (highestScore st)) as [Hs|Hs];
      [destruct (Bool.eqb_spec (wasInserted resp) (wasInsertedBest st))
         as [Hw|Hw]|]; simpl.
    + (* the response agrees with the best so far *)
      assert (Hag : agrees st resp) by done.
      split; simpl; try done.
      * intros r [Hr| ->%list_elem_of_singleton]%elem_of_app He;
          [by apply Hbd|lia].
      * right. exists resp. split; [|done].
        apply elem_of_app. right. by apply list_elem_of_singleton.
      * intros i b Hib.
        destruct (decide (cluster resp = i)) as [<-|Hne].
        -- rewrite lookup_insert_eq in Hib. injection Hib as <-.
           split; [done|]. exists resp. split; [|done].
           apply elem_of_app. right. by apply list_elem_of_singleton.
        -- rewrite lookup_insert_ne in Hib by done.
           destruct (Hsound i b Hib) as [-> (r & Hr & Hc & Hag')].
           split; [done|]. exists r.
           split; [by apply elem_of_app; left|done].
      * intros r Hr Hag'.
        destruct (decide (cluster resp = cluster r)) as [->|Hne].
        -- by rewrite lookup_insert_eq.
        -- rewrite lookup_insert_ne by done.
           apply elem_of_app in Hr as [Hr| ->%list_elem_of_singleton];
             [by apply Hcompl|done].
      * by rewrite failedQueries_snoc, Herr, Nat.add_0_r.
    + (* same score, other side: ignored *)
      destruct (Z.gtb_spec (score resp) (highestScore st)) as [?|_]; [lia|].
      split; simpl; try done.
      * intros r [Hr| ->%list_elem_of_singleton]%elem_of_app He;
          [by apply Hbd|lia].
      * destruct Hatt as [?|(r & Hr & Hag)]; [by left|right].
        exists r. split; [by apply elem_of_app; left|done].
      * intros i b Hib.
        destruct (Hsound i b Hib) as [-> (r & Hr & Hc & Hag)].
        split; [done|]. exists r.
        split; [by apply elem_of_app; left|done].
      * intros r [Hr| ->%list_elem_of_singleton]%elem_of_app Hag;
          [by apply Hcompl|]. destruct Hag as (_ & _ & ?). done.
      * by rewrite failedQueries_snoc, Herr, Nat.add_0_r.
    + destruct (Z.gtb_spec (score resp) (highestScore st)) as [Hgt|Hle].
      * (* a new highest score *)
        assert (Hin : resp ∈ seen ++ [resp]).
        { apply elem_of_app. right. by apply list_elem_of_singleton. }
        split; simpl; try done.
        -- lia.
        -- intros r [Hr| ->%list_elem_of_singleton]%elem_of_app He;
             [specialize (Hbd r Hr He)|]; lia.
        -- right. by exists resp.
        -- intros i b Hib.
           destruct (decide (cluster resp = i)) as [<-|Hne].
           ++ rewrite lookup_insert_eq in Hib. injection Hib as <-.
              split; [done|]. by exists resp.
           ++ rewrite lookup_insert_ne, lookup_empty in Hib by done. done.
        -- intros r Hr (He & Hsc & Hw). simpl in *.
           apply elem_of_app in Hr as [Hr| ->%list_elem_of_singleton].
           ++ specialize (Hbd r Hr He). lia.
           ++ by rewrite lookup_insert_eq.
        -- by rewrite failedQueries_snoc, Herr, Nat.add_0_r.
      * (* a lower score: ignored *)
        split; simpl; try done.
        -- intros r [Hr| ->%list_elem_of_singleton]%elem_of_app He;
             [by apply Hbd|lia].
        -- destruct Hatt as [?|(r & Hr & Hag)]; [by left|right].
           exists r. split; [by apply elem_of_app; left|done].
        -- intros i b Hib.
           destruct (Hsound i b Hib) as [-> (r & Hr & Hc & Hag)].
           split; [done|]. exists r.
           split; [by apply elem_of_app; left|done].
        -- intros r [Hr| ->%list_elem_of_singleton]%elem_of_app Hag;
             [by apply Hcompl|]. destruct Hag as (_ & ? & _). done.
        -- by rewrite failedQueries_snoc, Herr, Nat.add_0_r.
Qed.

Lemma gatherInv_foldl seen :
  gatherInv (foldl Farm.gatherStep Farm.gatherInit seen) seen.
Proof.
  induction seen as [|resp seen IH] using rev_ind.
  - apply gatherInv_init.
  - rewrite foldl_snoc. by apply gatherInv_step.
Qed.

Lemma gatherScores_foldl chan st :
  Farm.gatherScores (length chan) chan st
  = Some (foldl Farm.gatherStep st chan).
Proof.
  revert st. induction chan as [|resp chan IH]; intros st; simpl; [done|].
  apply IH.
Qed.
End gather.

Section repair.
Variables (f : Farm.t) (km : keyMember) (arrival : list nat).
Hypothesis arrival_perm : arrival ≡ₚ seq 0 (length (Farm.clusters f)).

Let chan := Farm.deliver arrival (Farm.scatterScore f km).
Let final := foldl Farm.gatherStep Farm.gatherInit chan.

Lemma scatterScore_length :
  length (Farm.scatterScore f km) = length (Farm.clusters f).
Proof. unfold Farm.scatterScore. by rewrite length_imap. Qed.

Lemma chan_perm : chan ≡ₚ Farm.scatterScore f km.
Proof.
  apply deliver_Permutation. by rewrite scatterScore_length.
Qed.

Lemma elect_final : Farm.elect f km arrival = Some final.
Proof.
  unfold Farm.elect. fold chan.
  rewrite <-scatterScore_length, <-(Permutation_length chan_perm).
  apply gatherScores_foldl.
Qed.

Lemma final_inv : gatherInv final chan.
Proof. apply gatherInv_foldl. Qed.

(** The responses are those of the clusters, each tagged with the
    index of its cluster. *)
Lemma elem_of_chan r :
  r ∈ chan ↔
    ∃ i c, Farm.clusters f !! i = Some c
           ∧ cluster r = i
           ∧ (score r, wasInserted r, err r) = replyOf c km.
Proof.
  rewrite chan_perm. unfold Farm.scatterScore. rewrite list_elem_of_lookup.
  split.
  - intros (i & Hi). rewrite list_lookup_imap in Hi.
    destruct (Farm.clusters f !! i) as [c|] eqn:Hc; [|done].
    exists i, c. split; [done|]. simpl in Hi. unfold replyOf.
    destruct (Cluster.Score c (kmKey km) (kmMember km)) as [[s w] e].
    by injection Hi as <-.
  - intros (i & c & Hc & Hi & Hr). exists i.
    rewrite list_lookup_imap, Hc. simpl. unfold replyOf in Hr.
    destruct (Cluster.Score c (kmKey km) (kmMember km)) as [[s w] e].
    destruct r. simpl in *. by simplify_eq.
Qed.

Lemma agrees_winning st r c :
  (score r, wasInserted r, err r) = replyOf c km →
  agrees st r ↔ replyOf c km = winning st.
Proof.
  intros <-. unfold agrees, winning. split.
  - by intros (-> & -> & ->).
  - by intros [= -> -> ->].
Qed.

(** A cluster is marked up to date exactly when its reply is the
    elected (score, side). *)
Lemma marked_iff i c :
  Farm.clusters f !! i = Some c →
  default false (clustersUpToDate final !! i)
  = bool_decide (replyOf c km = winning final).
Proof.
  intros Hc. pose proof final_inv as [_ _ _ Hsound Hcompl _].
  destruct (decide (replyOf c km = winning final)) as [Hw|Hw].
  - rewrite bool_decide_eq_true_2 by done.
    destruct (replyOf c km) as [[s w] e] eqn:Hrep.
    set (r := {| cluster := i; score := s; wasInserted := w; err := e |}).
    assert (Hr : r ∈ chan).
    { apply elem_of_chan. exists i, c. by rewrite Hrep. }
    assert (Hag : agrees final r).
    { apply (agrees_winning _ _ c); by rewrite Hrep. }
    pose proof (Hcompl r Hr Hag) as Hm. simpl in Hm. by rewrite Hm.
  - rewrite bool_decide_eq_false_2 by done.
    destruct (clustersUpToDate final !! i) as [b|] eqn:Hb; [|done].
    destruct (Hsound i b Hb) as [-> (r & Hr & Hi & Hag)].
    apply elem_of_chan in Hr as (j & c' & Hc' & Hj & Hrep).
    assert (c' = c) as -> by congruence.
    destruct Hw. by apply (agrees_winning _ r).
Qed.

Lemma marked_dom :
  dom (clustersUpToDate final) ⊆ set_seq 0 (length (Farm.clusters f)).
Proof.
  pose proof final_inv as [_ _ _ Hsound _ _].
  intros i [b Hb]%elem_of_dom.
  destruct (Hsound i b Hb) as [_ (r & Hr & Hi & _)].
  apply elem_of_chan in Hr as (j & c & Hc & Hj & _).
  apply elem_of_set_seq. apply lookup_lt_Some in Hc. lia.
Qed.

(** [len(clustersUpToDate) == len(f.clusters)] holds exactly when
    every cluster replied with the elected (score, side). *)
Lemma all_marked_iff :
  size (clustersUpToDate final) = length (Farm.clusters f)
  ↔ ∀ c, c ∈ Farm.clusters f → replyOf c km = winning final.
Proof.
  rewrite <-size_dom. split.
  - intros Hsize c [i Hc]%list_elem_of_lookup.
    assert (Heq : dom (clustersUpToDate final)
                  = set_seq 0 (length (Farm.clusters f))).
    { apply set_subseteq_size_eq; [apply marked_dom|].
      by rewrite size_set_seq, Hsize. }
    pose proof (marked_iff i c Hc) as Hm.
    assert (Hi : i ∈ dom (clustersUpToDate final)).
    { rewrite Heq. apply elem_of_set_seq.
      apply lookup_lt_Some in Hc. lia. }
    apply elem_of_dom in Hi as [b Hb].
    pose proof final_inv as [_ _ _ Hsound _ _].
    destruct (Hsound i b Hb) as [-> _]. rewrite Hb in Hm. simpl in Hm.
    symmetry in Hm. by apply bool_decide_eq_true in Hm.
  - intros Hall.
    assert (Heq : dom (clustersUpToDate final)
                  = set_seq 0 (length (Farm.clusters f))).
    { apply set_eq. intros i. split; [apply marked_dom|].
      intros Hi%elem_of_set_seq.
      destruct (lookup_lt_is_Some_2 (Farm.clusters f) i) as [c Hc]; [lia|].
      pose proof (marked_iff i c Hc) as Hm.
      rewrite bool_decide_eq_true_2 in Hm
        by (apply Hall; by eapply list_elem_of_lookup_2).
      apply elem_of_dom.
      destruct (clustersUpToDate final !! i); [done|discriminate]. }
    by rewrite Heq, size_set_seq.
Qed.
End repair.

Section propagate.
Context {A : Type}.
Implicit Types (h : nat → A → list repairWrite) (l : list A).

Lemma writesTo_all (ws : list repairWrite) i :
  (∀ w, w ∈ ws → target w = i) → writesTo i ws = ws.
Proof.
  unfold writesTo. induction ws as [|w ws IH]; intros Hall; [done|].
  rewrite filter_cons, decide_True by (apply Hall, list_elem_of_here).
  f_equal. apply IH. intros w' Hw'. by apply Hall, list_elem_of_further.
Qed.

Lemma writesTo_none (ws : list repairWrite) i :
  (∀ w, w ∈ ws → target w ≠ i) → writesTo i ws = [].
Proof.
  unfold writesTo. induction ws as [|w ws IH]; intros Hall; [done|].
  rewrite filter_cons, decide_False by (apply Hall, list_elem_of_here).
  apply IH. intros w' Hw'. by apply Hall, list_elem_of_further.
Qed.

(** A loop over the clusters that pushes to cluster [k + j] what [h j]
    says reaches cluster [t] with what [h] says for it. *)
Lemma writesTo_imap h l (k t : nat) :
  (∀ j c w, w ∈ h j c → target w = (k + j)%nat) →
  writesTo t (mjoin (imap h l))
  = if decide (k ≤ t)%nat
    then match l !! (t - k)%nat with
         | Some c => h (t - k)%nat c
         | None => []
         end
    else [].
Proof.
  revert h k. induction l as [|x l IH]; intros h k Htarget.
  - simpl. by case_decide.
  - rewrite imap_cons. simpl. unfold writesTo in *. rewrite filter_app.
    rewrite (IH (h ∘ S) (S k)).
    2:{ intros j c w Hw. rewrite (Htarget (S j) c w Hw). lia. }
    destruct (decide (k ≤ t)%nat) as [Hkt|Hkt].
    + destruct (decide (S k ≤ t)%nat) as [HSkt|HSkt].
      * fold (writesTo t (h 0%nat x)). rewrite writesTo_none.
        2:{ intros w Hw. rewrite (Htarget 0%nat x w Hw). lia. }
        simpl. replace (t - k)%nat with (S (t - S k)) by lia. done.
      * assert (t = k) as -> by lia.
        fold (writesTo k (h 0%nat x)). rewrite writesTo_all.
        2:{ intros w Hw. rewrite (Htarget 0%nat x w Hw). lia. }
        rewrite Nat.sub_diag. simpl. by rewrite app_nil_r.
    + rewrite decide_False by lia.
      fold (writesTo t (h 0%nat x)). rewrite writesTo_none; [done|].
      intros w Hw. rewrite (Htarget 0%nat x w Hw). lia.
Qed.
End propagate.

(** The propagation loop pushes once to every cluster that is not
    marked, and to no other. *)
Lemma writesTo_propagate (f : Farm.t) (st : gatherState) (km : keyMember)
    (i : nat) :
  writesTo i (Farm.propagate f st
                (mkKSM (kmKey km) (highestScore st) (kmMember km)))
  = match Farm.clusters f !! i with
    | Some c =>
        if default false (clustersUpToDate st !! i) then []
        else [pushOf st km i c]
    | None => []
    end.
Proof.
  unfold Farm.propagate. rewrite (writesTo_imap _ _ 0%nat).
  - rewrite decide_True by lia. rewrite Nat.sub_0_r.
    destruct (Farm.clusters f !! i) as [c|]; [|done].
    by destruct (default false (clustersUpToDate st !! i)).
  - intros j c w Hw.
    destruct (default false (clustersUpToDate st !! j)); simpl in Hw.
    + by apply elem_of_nil in Hw.
    + apply list_elem_of_singleton in Hw. by subst.
Qed.

(** ** Claims about the repair coordinator *)

Lemma failedQueries_Permutation (l l' : list scoreResponseTuple) :
  l ≡ₚ l' → failedQueries l = failedQueries l'.
Proof. unfold failedQueries. by intros ->. Qed.

Lemma failedQueries_none (l : list scoreResponseTuple) :
  (∀ r, r ∈ l → err r = None) → failedQueries l = 0%nat.
Proof.
  unfold failedQueries. induction l as [|r l IH]; intros Hall; [done|].
  rewrite filter_cons, decide_False.
  - apply IH. intros r' Hr'. by apply Hall, list_elem_of_further.
  - intros Hne. apply Hne, Hall, list_elem_of_here.
Qed.

(** C4.  For every repair in which some cluster's score query succeeds
    with a strictly positive score: the elected score is the maximum
    over the successful replies (and the elected (score, side) is one
    of them); every cluster whose reply is not the elected (score,
    side), a failed query included, receives exactly one write, of the
    single tuple (key, elected score, member), through [Insert] if the
    elected side is inserted and through [Delete] if not; and a cluster
    whose reply is the elected (score, side) receives no write. *)
Theorem repair_propagates_winner (f : Farm.t) (km : keyMember)
    (arrival : list nat) :
  arrival ≡ₚ seq 0 (length (Farm.clusters f)) →
  (∃ c s w, c ∈ Farm.clusters f ∧ replyOf c km = (s, w, None) ∧ 0 < s) →
  ∃ st out,
    Farm.elect f km arrival = Some st
    ∧ Farm.Repair f km arrival = Some out
    ∧ (∃ c, c ∈ Farm.clusters f ∧ replyOf c km = winning st)
    ∧ (∀ c s w, c ∈ Farm.clusters f → replyOf c km = (s, w, None) →
                s ≤ highestScore st)
    ∧ (∀ i c, Farm.clusters f !! i = Some c →
              writesTo i (writes out)
              = if decide (replyOf c km = winning st) then []
                else [pushOf st km i c])
    ∧ (∀ w, w ∈ writes out → (target w < length (Farm.clusters f))%nat).
Proof.
  intros Hperm (c0 & s0 & w0 & Hc0 & Hrep0 & Hpos).
  set (chan := Farm.deliver arrival (Farm.scatterScore f km)).
  set (st := foldl Farm.gatherStep Farm.gatherInit chan).
  pose proof (final_inv f km arrival) as [Hnn Hbd Hatt _ _ _].
  fold chan st in Hnn, Hbd, Hatt.
  assert (Hmax : ∀ c s w, c ∈ Farm.clusters f →
                   replyOf c km = (s, w, None) → s ≤ highestScore st).
  { intros c s w [i Hc]%list_elem_of_lookup Hrep.
    apply (Hbd {| cluster := i; score := s; wasInserted := w; err := None |});
      [|done].
    apply (elem_of_chan f km arrival Hperm). exists i, c. by rewrite Hrep. }
  assert (Hhs : 0 < highestScore st).
  { specialize (Hmax c0 s0 w0 Hc0 Hrep0). lia. }
  assert (Hwin : ∃ c, c ∈ Farm.clusters f ∧ replyOf c km = winning st).
  { destruct Hatt as [[? _]|(r & Hr & Hag)]; [lia|].
    apply (elem_of_chan f km arrival Hperm) in Hr as (i & c & Hc & _ & Hrep).
    exists c. split; [by eapply list_elem_of_lookup_2|].
    by apply (agrees_winning km st r c). }
  assert (Hwrites : ∀ i c, Farm.clusters f !! i = Some c →
            writesTo i (Farm.propagate f st
                          (mkKSM (kmKey km) (highestScore st) (kmMember km)))
            = if decide (replyOf c km = winning st) then []
              else [pushOf st km i c]).
  { intros i c Hc. rewrite writesTo_propagate, Hc.
    pose proof (marked_iff f km arrival Hperm i c Hc) as Hm.
    fold chan st in Hm. rewrite Hm.
    by destruct (decide (replyOf c km = winning st)) as [Hd|Hd];
      [rewrite bool_decide_eq_true_2|rewrite bool_decide_eq_false_2]. }
  exists st. unfold Farm.Repair. rewrite (elect_final f km arrival Hperm).
  fold chan st.
  destruct (Z.eqb_spec (highestScore st) 0) as [?|_]; [lia|].
  destruct (Z.eqb_spec (Z.of_nat (size (clustersUpToDate st)))
                       (Z.of_nat (length (Farm.clusters f)))) as [Hsz|Hsz].
  - apply Nat2Z.inj in Hsz.
    pose proof (all_marked_iff f km arrival Hperm) as Hall.
    fold chan st in Hall. pose proof (proj1 Hall Hsz) as Hagree.
    eexists. split; [done|]. split; [done|]. simpl.
    split; [done|]. split; [done|]. split.
    + intros i c Hc. rewrite decide_True; [done|].
      apply Hagree. by eapply list_elem_of_lookup_2.
    + intros w Hw. by apply elem_of_nil in Hw.
  - eexists. split; [done|]. split; [done|]. simpl.
    split; [done|]. split; [done|]. split; [done|].
    intros w Hw.
    assert (Hin : w ∈ writesTo (target w)
                    (Farm.propagate f st
                       (mkKSM (kmKey km) (highestScore st) (kmMember km)))).
    { unfold writesTo. by apply list_elem_of_filter. }
    rewrite writesTo_propagate in Hin.
    destruct (Farm.clusters f !! target w) as [c|] eqn:Hc.
    + by apply lookup_lt_Some in Hc.
    + by apply elem_of_nil in Hin.
Qed.

Lemma repair_propagates_winner_witness :
  let f := Farm.New [holding 3 true; holding 3 true; holding 1 true] 2 in
  let km := mkKM "k" "m" in
  let arrival := [1; 0; 2]%nat in
  ∃ st out,
    Farm.elect f km arrival = Some st
    ∧ Farm.Repair f km arrival = Some out
    ∧ (∃ c, c ∈ Farm.clusters f ∧ replyOf c km = winning st)
    ∧ (∀ c s w, c ∈ Farm.clusters f → replyOf c km = (s, w, None) →
                s ≤ highestScore st)
    ∧ (∀ i c, Farm.clusters f !! i = Some c →
              writesTo i (writes out)
              = if decide (replyOf c km = winning st) then []
                else [pushOf st km i c])
    ∧ (∀ w, w ∈ writes out → (target w < length (Farm.clusters f))%nat).
Proof.
  intros f km arrival. apply (repair_propagates_winner f km arrival).
  - apply Permutation_swap.
  - exists (holding 3 true), 3, true. split; [apply list_elem_of_here|].
    split; [reflexivity|lia].
Defined.

(** Scenario 5 of the specification: one [Insert] of (k, 3, m), to the
    cluster that lags. *)
Example repair_convergence_scenario :
  Farm.Repair (Farm.New [holding 3 true; holding 3 true; holding 1 true] 2)
    (mkKM "k" "m") [2; 0; 1]%nat
  = Some {| writes := [ {| target := 2; viaInsert := true;
                           payload := [mkKSM "k" 3 "m"];
                           pushResult := None |} ];
            repairEvents := [RepairCall; RepairRequestCount 1;
                             RepairCheckDuration; RepairWriteCount;
                             RepairWriteSuccess; RepairWriteDuration] |}.
Proof. vm_compute. reflexivity. Qed.

(** C7.  For every repair in which no successful reply carries a
    positive score (every query failed, or the successful ones report
    nothing), the elected score is zero, the coordinator records the
    complete-failure counter, and no cluster is written to. *)
Theorem repair_nothing_found (f : Farm.t) (km : keyMember)
    (arrival : list nat) :
  arrival ≡ₚ seq 0 (length (Farm.clusters f)) →
  (∀ c s w, c ∈ Farm.clusters f → replyOf c km = (s, w, None) → s ≤ 0) →
  ∃ st out,
    Farm.elect f km arrival = Some st
    ∧ highestScore st = 0
    ∧ Farm.Repair f km arrival = Some out
    ∧ writes out = []
    ∧ repairEvents out
      = [RepairCall; RepairRequestCount 1]
        ++ replicate (failedQueries (Farm.scatterScore f km))
             RepairCheckPartialFailure
        ++ [RepairCheckDuration; RepairCheckCompleteFailure].
Proof.
  intros Hperm Hnone.
  set (chan := Farm.deliver arrival (Farm.scatterScore f km)).
  set (st := foldl Farm.gatherStep Farm.gatherInit chan).
  pose proof (final_inv f km arrival) as [Hnn _ Hatt _ _ Hfail].
  fold chan st in Hnn, Hatt, Hfail.
  assert (Hzero : highestScore st = 0).
  { destruct Hatt as [[? _]|(r & Hr & He & Hs & Hw)]; [done|].
    apply (elem_of_chan f km arrival Hperm) in Hr as (i & c & Hc & _ & Hrep).
    rewrite He in Hrep.
    pose proof (Hnone c (score r) (wasInserted r)
                  (list_elem_of_lookup_2 _ _ _ Hc) (eq_sym Hrep)). lia. }
  exists st. unfold Farm.Repair. rewrite (elect_final f km arrival Hperm).
  fold chan st. rewrite Hzero. simpl.
  eexists. split; [done|]. split; [done|]. split; [done|]. simpl.
  split; [done|]. rewrite Hfail.
  rewrite (failedQueries_Permutation chan (Farm.scatterScore f km))
    by apply (chan_perm f km arrival Hperm).
  by rewrite <-!app_assoc.
Qed.

Lemma repair_nothing_found_witness :
  let f := Farm.New [failing "down"; reliable; failing "timeout"] 2 in
  let km := mkKM "k" "m" in
  let arrival := [0; 2; 1]%nat in
  ∃ st out,
    Farm.elect f km arrival = Some st
    ∧ highestScore st = 0
    ∧ Farm.Repair f km arrival = Some out
    ∧ writes out = []
    ∧ repairEvents out
      = [RepairCall; RepairRequestCount 1]
        ++ replicate (failedQueries (Farm.scatterScore f km))
             RepairCheckPartialFailure
        ++ [RepairCheckDuration; RepairCheckCompleteFailure].
Proof.
  intros f km arrival. apply (repair_nothing_found f km arrival).
  - apply perm_skip, Permutation_swap.
  - intros c s w Hc Hrep. apply list_elem_of_In in Hc.
    destruct Hc as [<-|[<-|[<-|[]]]]; by inversion Hrep.
Defined.

(** C8, counterexample.  Three clusters that all answer (0, not
    inserted) without error: every reply equals the elected (score,
    side), and yet the coordinator records the complete-failure counter
    and not the redundant-repair counter. *)
Lemma repair_redundant_counterexample :
  let f := Farm.New [reliable; reliable; reliable] 2 in
  let km := mkKM "k" "m" in
  let arrival := [0; 1; 2]%nat in
  ∃ st out,
    Farm.elect f km arrival = Some st
    ∧ (∀ c, c ∈ Farm.clusters f → replyOf c km = winning st)
    ∧ Farm.Repair f km arrival = Some out
    ∧ repairEvents out = [RepairCall; RepairRequestCount 1;
                          RepairCheckDuration; RepairCheckCompleteFailure]
    ∧ RepairCheckRedundant ∉ repairEvents out.
Proof.
  cbv zeta. eexists. eexists. split; [vm_compute; reflexivity|].
  split; [|split; [vm_compute; reflexivity|]].
  - intros c Hc. apply list_elem_of_In in Hc.
    destruct Hc as [<-|[<-|[<-|[]]]]; reflexivity.
  - simpl. split; [done|]. intros Hin. apply list_elem_of_In in Hin.
    simpl in Hin. intuition discriminate.
Qed.

(** C8, as amended.  For every repair in which every cluster's score
    query succeeds and all replies equal the elected (score, side), no
    cluster receives a write; the coordinator records the redundant-repair
    counter when the elected score is strictly positive, and the
    complete-failure counter when it is zero. *)
Theorem repair_redundant (f : Farm.t) (km : keyMember) (arrival : list nat)
    (st : gatherState) :
  arrival ≡ₚ seq 0 (length (Farm.clusters f)) →
  Farm.elect f km arrival = Some st →
  (∀ c, c ∈ Farm.clusters f → replyOf c km = winning st) →
  ∃ out,
    Farm.Repair f km arrival = Some out
    ∧ writes out = []
    ∧ 0 ≤ highestScore st
    ∧ (0 < highestScore st →
       repairEvents out = [RepairCall; RepairRequestCount 1;
                           RepairCheckDuration; RepairCheckRedundant])
    ∧ (highestScore st = 0 →
       repairEvents out = [RepairCall; RepairRequestCount 1;
                           RepairCheckDuration; RepairCheckCompleteFailure]).
Proof.
  intros Hperm Helect Hall.
  pose proof (elect_final f km arrival Hperm) as Hfinal.
  rewrite Helect in Hfinal. injection Hfinal as ->.
  set (chan := Farm.deliver arrival (Farm.scatterScore f km)) in *.
  set (st := foldl Farm.gatherStep Farm.gatherInit chan) in *.
  pose proof (final_inv f km arrival) as [Hnn _ _ _ _ Hfail].
  fold chan st in Hnn, Hfail.
  assert (Hnofail : failedQueries chan = 0%nat).
  { apply failedQueries_none. intros r Hr.
    apply (elem_of_chan f km arrival Hperm) in Hr as (i & c & Hc & _ & Hrep).
    rewrite (Hall c (list_elem_of_lookup_2 _ _ _ Hc)) in Hrep.
    by injection Hrep. }
  rewrite Hnofail in Hfail. simpl in Hfail.
  pose proof (proj2 (all_marked_iff f km arrival Hperm)) as Hsize.
  fold chan st in Hsize. specialize (Hsize Hall).
  unfold Farm.Repair. rewrite Helect, Hfail, Hsize, Z.eqb_refl.
  destruct (Z.eqb_spec (highestScore st) 0) as [Hz|Hnz].
  - eexists. split; [done|]. simpl. repeat split; try done; lia.
  - eexists. split; [done|]. simpl. repeat split; try done; lia.
Qed.

Lemma repair_redundant_witness :
  let f := Farm.New [holding 3 true; holding 3 true; holding 3 true] 2 in
  let km := mkKM "k" "m" in
  let arrival := [1; 0; 2]%nat in
  ∃ out,
    Farm.Repair f km arrival = Some out
    ∧ writes out = []
    ∧ 0 ≤ 3
    ∧ (0 < 3 →
       repairEvents out = [RepairCall; RepairRequestCount 1;
                           RepairCheckDuration; RepairCheckRedundant])
    ∧ (3 = 0 →
       repairEvents out = [RepairCall; RepairRequestCount 1;
                           RepairCheckDuration; RepairCheckCompleteFailure]).
Proof.
  intros f km arrival.
  apply (repair_redundant f km arrival
           {| clustersUpToDate := {[ 2%nat := true; 1%nat := true; 0%nat := true ]};
              highestScore := 3; wasInsertedBest := true;
              partialFailures := [] |}).
  - apply Permutation_swap.
  - vm_compute. reflexivity.
  - intros c Hc. apply list_elem_of_In in Hc.
    destruct Hc as [<-|[<-|[<-|[]]]]; reflexivity.
Defined.

(** Scenario 6 of the specification. *)
Example redundant_repair_scenario :
  Farm.Repair (Farm.New [holding 3 true; holding 3 true; holding 3 true] 2)
    (mkKM "k" "m") [0; 1; 2]%nat
  = Some {| writes := [];
            repairEvents := [RepairCall; RepairRequestCount 1;
                             RepairCheckDuration; RepairCheckRedundant] |}.
Proof. vm_compute. reflexivity. Qed.

(** * Further properties *)

(** ** [unionDifference] *)

(** X1.  The union composes: merging the union of some replies with
    further replies gives the union of all of them. *)
Theorem union_associative (xs ys : list tupleSet) :
  unionOf (unionOf xs :: ys) = unionOf (xs ++ ys).
Proof.
  apply set_eq. intros t. rewrite !elem_of_unionOf. split.
  - intros [(s & Hs & Ht) Hmax]. apply elem_of_cons in Hs as [->|Hs].
    + apply elem_of_unionOf in Ht as [(x & Hx & Htx) Hxs]. split.
      * exists x. split; [apply elem_of_app; by left|done].
      * intros s' t' [Hs'|Hs']%elem_of_app Ht' Hk.
        -- by apply (Hxs s' t').
        -- apply (Hmax s' t'); [by apply list_elem_of_further|done..].
    + split.
      * exists s. split; [apply elem_of_app; by right|done].
      * intros s' t' [Hs'|Hs']%elem_of_app Ht' Hk.
        -- destruct (union_has_every_pair xs t') as [b Hb]; [eauto|].
           destruct (kmOf_ksmOf (kmOf t') b) as [Hkb Hsb].
           pose proof Hb as Hb'. apply elem_of_unionOf in Hb' as [_ Hbmax].
           specialize (Hbmax s' t' Hs' Ht'). rewrite Hkb, Hsb in Hbmax.
           specialize (Hmax _ _ (list_elem_of_here _ _) Hb).
           rewrite Hkb, Hsb in Hmax. specialize (Hbmax eq_refl).
           specialize (Hmax Hk). lia.
        -- apply (Hmax s' t'); [by apply list_elem_of_further|done..].
  - intros [(s & Hs & Ht) Hmax].
    assert (Hboth : ∀ s' t', s' ∈ unionOf xs :: ys → t' ∈ s' →
                      kmOf t' = kmOf t → Score t' ≤ Score t).
    { intros s' t' [->|Hs']%elem_of_cons Ht' Hk.
      - apply elem_of_unionOf in Ht' as [(x & Hx & Htx) _].
        apply (Hmax x t'); [apply elem_of_app; by left|done..].
      - apply (Hmax s' t'); [apply elem_of_app; by right|done..]. }
    split; [|done]. apply elem_of_app in Hs as [Hs|Hs].
    + exists (unionOf xs). split; [apply list_elem_of_here|].
      apply elem_of_unionOf. split; [by exists s|].
      intros s' t' Hs' Ht' Hk.
      apply (Hmax s' t'); [apply elem_of_app; by left|done..].
    + exists s. split; [by apply list_elem_of_further|done].
Qed.

(** X2.  The difference is empty exactly when all inputs are the same
    set; in particular a single input never yields a difference. *)
Theorem difference_empty_iff_equal (sets : list tupleSet) :
  differenceOf sets = ∅ ↔ ∀ s s', s ∈ sets → s' ∈ sets → s = s'.
Proof.
  split.
  - intros Hempty s s' Hs Hs'.
    assert (Hsub : ∀ a b : tupleSet, a ∈ sets → b ∈ sets → a ⊆ b).
    { intros a b Ha Hb t Ht. destruct (decide (t ∈ b)) as [|Hnot]; [done|].
      assert (Hin : kmOf t ∈ differenceOf sets).
      { apply elem_of_differenceOf. exists t.
        split; [done|]. split; [by exists a|by exists b]. }
      rewrite Hempty in Hin. by apply not_elem_of_empty in Hin. }
    apply set_eq. intros t. split; by apply Hsub.
  - intros Hall. apply set_eq. intros km. split.
    + intros (t & _ & (s1 & Hs1 & Hin) & (s2 & Hs2 & Hout))%elem_of_differenceOf.
      rewrite (Hall s1 s2 Hs1 Hs2) in Hin. done.
    + intros Hin. by apply not_elem_of_empty in Hin.
Qed.

(** X3.  The difference does not depend on the order of the inputs. *)
Theorem difference_commutative (sets sets' : list tupleSet) :
  sets ≡ₚ sets' → differenceOf sets = differenceOf sets'.
Proof.
  intros Hperm. apply set_eq. intros km. rewrite !elem_of_differenceOf.
  assert (Hin : ∀ s, s ∈ sets ↔ s ∈ sets') by (intros s; by rewrite Hperm).
  split; intros (t & Hk & (s1 & Hs1 & Ht1) & (s2 & Hs2 & Ht2));
    exists t; (split; [done|]); split.
  - exists s1. by rewrite <-Hin.
  - exists s2. by rewrite <-Hin.
  - exists s1. by rewrite Hin.
  - exists s2. by rewrite Hin.
Qed.

Lemma difference_commutative_witness :
  let A : tupleSet := {[ mkKSM "k" 1 "m1" ]} in
  let B : tupleSet := {[ mkKSM "k" 2 "m1"; mkKSM "k" 1 "m2" ]} in
  differenceOf [A; B] = differenceOf [B; A].
Proof.
  intros A B. apply (difference_commutative [A; B] [B; A]).
  apply Permutation_swap.
Defined.

(** X4.  Neither result invents anything: every tuple of the union is
    a tuple of some input, and every pair of the difference has its
    tuple in the union. *)
Theorem union_difference_from_inputs (sets : list tupleSet) :
  (∀ t, t ∈ unionOf sets → ∃ s, s ∈ sets ∧ t ∈ s)
  ∧ (∀ km, km ∈ differenceOf sets → ∃ t, t ∈ unionOf sets ∧ kmOf t = km).
Proof.
  split.
  - intros t [Hin _]%elem_of_unionOf. done.
  - intros km (t & Hk & Hin & _)%elem_of_differenceOf.
    destruct (union_has_every_pair sets t Hin) as [b Hb].
    exists (ksmOf (kmOf t) b). split; [done|].
    destruct (kmOf_ksmOf (kmOf t) b) as [-> _]. done.
Qed.

Lemma foldl_foldl_scanTuple (ranges : list (list KeyScoreMember)) st :
  foldl (foldl scanTuple) st ranges = foldl scanTuple st (mjoin ranges).
Proof.
  revert st. induction ranges as [|r ranges IH]; intros st; simpl; [done|].
  by rewrite IH, foldl_app.
Qed.

Lemma ranges_visited (ranges : list (list KeyScoreMember)) (sets : list tupleSet) :
  Forall2 (λ r s, r ≡ₚ elements s) ranges sets →
  mjoin ranges ≡ₚ visited sets.
Proof.
  unfold visited. induction 1 as [|r s ranges sets Hr _ IH]; [done|].
  rewrite bind_cons. simpl. by rewrite Hr, IH.
Qed.

(** X5.  Go ranges over a map in an unspecified order; whatever the
    order in which each input set is ranged over, [unionDifference]
    returns the same union and the same difference. *)
Theorem unionDifference_range_order (ranges : list (list KeyScoreMember))
    (sets : list tupleSet) :
  Forall2 (λ r s, r ≡ₚ elements s) ranges sets →
  unionDifferenceRanged ranges = unionDifference sets.
Proof.
  intros Hranges. unfold unionDifferenceRanged, unionDifference.
  rewrite foldl_foldl_scanTuple, foldl_scanSet_flat.
  rewrite (scan_order_irrelevant (mjoin ranges) (sets ≫= elements))
    by (by apply ranges_visited).
  by rewrite (Forall2_length _ _ _ Hranges).
Qed.

Lemma unionDifference_range_order_witness :
  unionDifferenceRanged
    [ [mkKSM "k" 1 "m2"; mkKSM "k" 2 "m1"]; [mkKSM "k" 1 "m1"] ]
  = unionDifference
      [ {[ mkKSM "k" 2 "m1"; mkKSM "k" 1 "m2" ]}; {[ mkKSM "k" 1 "m1" ]} ].
Proof.
  apply unionDifference_range_order.
  repeat apply Forall2_cons_2; [..|apply Forall2_nil_2].
  - apply NoDup_Permutation; [|apply NoDup_elements|].
    + apply NoDup_cons. split; [|apply NoDup_singleton].
      intros H%list_elem_of_singleton. discriminate.
    + intros x.
      rewrite elem_of_elements, elem_of_union, !elem_of_singleton,
        elem_of_cons, list_elem_of_singleton.
      tauto.
  - apply NoDup_Permutation; [apply NoDup_singleton|apply NoDup_elements|].
    intros x.
    by rewrite elem_of_elements, elem_of_singleton, list_elem_of_singleton.
Defined.

(** ** The set helpers *)

Lemma elem_of_foldl_add (l : list KeyScoreMember) (s : tupleSet) t :
  t ∈ foldl (λ s tuple, TupleSet.add tuple s) s l ↔ t ∈ s ∨ t ∈ l.
Proof.
  revert s. induction l as [|x l IH]; intros s; simpl.
  - split; [by left|]. intros [?|H]; [done|by apply elem_of_nil in H].
  - rewrite IH. unfold TupleSet.add.
    rewrite elem_of_union, elem_of_singleton, elem_of_cons. tauto.
Qed.

Lemma elem_of_foldl_add_km (l : list keyMember) (s : keyMemberSet) km :
  km ∈ foldl (λ s km, KeyMemberSet.add km s) s l ↔ km ∈ s ∨ km ∈ l.
Proof.
  revert s. induction l as [|x l IH]; intros s; simpl.
  - split; [by left|]. intros [?|H]; [done|by apply elem_of_nil in H].
  - rewrite IH. unfold KeyMemberSet.add.
    rewrite elem_of_union, elem_of_singleton, elem_of_cons. tauto.
Qed.

(** X6.  [makeSet] and [slice] are inverse to each other up to order
    and repetition: the set made of a set's slice is that set, the slice
    of the set made of a slice lists the members of that slice without
    repetition, and [has] answers membership in the slice. *)
Theorem makeSet_slice_round_trip (s : tupleSet) (a : list KeyScoreMember) :
  TupleSet.makeSet (TupleSet.slice s) = s
  ∧ NoDup (TupleSet.slice (TupleSet.makeSet a))
  ∧ (∀ t, t ∈ TupleSet.slice (TupleSet.makeSet a) ↔ t ∈ a)
  ∧ (∀ t, TupleSet.has (TupleSet.makeSet a) t = true ↔ t ∈ a).
Proof.
  assert (Hmake : ∀ (l : list KeyScoreMember) t,
            t ∈ TupleSet.makeSet l ↔ t ∈ l).
  { intros l t. unfold TupleSet.makeSet. rewrite elem_of_foldl_add.
    split; [|by right]. intros [H|?]; [|done].
    by apply not_elem_of_empty in H. }
  split; [|split; [|split]].
  - apply set_eq. intros t. rewrite Hmake. apply elem_of_elements.
  - apply NoDup_elements.
  - intros t. unfold TupleSet.slice. by rewrite elem_of_elements, Hmake.
  - intros t. unfold TupleSet.has. by rewrite bool_decide_eq_true, Hmake.
Qed.

(** X7.  [addMany] is set union, for tuple sets and for key-member
    sets alike. *)
Theorem addMany_union (s other : tupleSet) (d dother : keyMemberSet) :
  TupleSet.addMany s other = s ∪ other
  ∧ KeyMemberSet.addMany d dother = d ∪ dother.
Proof.
  split.
  - apply set_eq. intros t. unfold TupleSet.addMany.
    by rewrite elem_of_foldl_add, elem_of_union, elem_of_elements.
  - apply set_eq. intros km. unfold KeyMemberSet.addMany.
    by rewrite elem_of_foldl_add_km, elem_of_union, elem_of_elements.
Qed.

(** X8.  A negative limit makes [orderedLimitedSlice] panic, for every
    set, the empty one included: the length of the slice is never below
    zero, so [a[:limit]] is always evaluated. *)
Theorem orderedLimitedSlice_negative_panics (s : tupleSet) (limit : Z) :
  limit < 0 → orderedLimitedSlice s limit = None.
Proof.
  intros Hneg. unfold orderedLimitedSlice, orderLimit, sliceTo.
  destruct (Z.gtb_spec (Z.of_nat (length (sortKSM (TupleSet.slice s)))) limit)
    as [_|Hle]; [|lia].
  by destruct (Z.ltb_spec limit 0); [|lia].
Qed.

Lemma orderedLimitedSlice_negative_panics_witness :
  orderedLimitedSlice ∅ (-1) = None.
Proof. apply orderedLimitedSlice_negative_panics. lia. Defined.

(** X9.  For a non-negative limit [orderedLimitedSlice] returns exactly
    min(limit, size of the set) tuples, all of them members of the set
    and no two of them equal; when the limit is not below the size of
    the set, nothing is dropped. *)
Theorem orderedLimitedSlice_exact (s : tupleSet) (limit : Z) :
  0 ≤ limit →
  ∃ a, orderedLimitedSlice s limit = Some a
       ∧ Z.of_nat (length a) = Z.min limit (Z.of_nat (size s))
       ∧ NoDup a
       ∧ (∀ t, t ∈ a → t ∈ s)
       ∧ (Z.of_nat (size s) ≤ limit → TupleSet.makeSet a = s).
Proof.
  intros Hlim. unfold orderedLimitedSlice, TupleSet.slice.
  rewrite orderLimit_take by done.
  set (srt := sortKSM (elements s)).
  assert (Hperm : srt ≡ₚ elements s) by apply merge_sort_Permutation.
  assert (Hlen : length srt = size s) by (by rewrite Hperm).
  assert (Hnd : NoDup srt) by (rewrite Hperm; apply NoDup_elements).
  eexists. split; [done|]. split; [|split; [|split]].
  - rewrite length_take. lia.
  - rewrite <-(take_drop (Z.to_nat limit) srt) in Hnd.
    by apply NoDup_app in Hnd as [? _].
  - intros t Ht. apply (subseteq_take (Z.to_nat limit) srt) in Ht.
    rewrite Hperm in Ht. by apply elem_of_elements.
  - intros Hall. rewrite take_ge by lia. apply set_eq. intros t.
    unfold TupleSet.makeSet. rewrite elem_of_foldl_add, Hperm, elem_of_elements.
    split; [|by right]. intros [H|?]; [|done].
    by apply not_elem_of_empty in H.
Qed.

Lemma orderedLimitedSlice_exact_witness :
  let s : tupleSet :=
    {[ mkKSM "k" 1 "a"; mkKSM "k" 3 "b"; mkKSM "j" 2 "c" ]} in
  ∃ a, orderedLimitedSlice s 5 = Some a
       ∧ Z.of_nat (length a) = Z.min 5 (Z.of_nat (size s))
       ∧ NoDup a
       ∧ (∀ t, t ∈ a → t ∈ s)
       ∧ (Z.of_nat (size s) ≤ 5 → TupleSet.makeSet a = s).
Proof. intros s. apply (orderedLimitedSlice_exact s 5). lia. Defined.

(** ** The write coordinator *)

Lemma acknowledgements_snoc_take (chan : list error) (j : nat) e :
  chan !! j = Some e →
  acknowledgements (take (S j) chan)
  = acknowledgements (take j chan) + (if e is None then 1 else 0).
Proof.
  intros Hj. rewrite (take_S_r _ _ _ Hj). unfold acknowledgements.
  rewrite filter_app, length_app, filter_cons.
  destruct e; case_decide; simpl; try done; lia.
Qed.

(** The gather loop stops no later than the first reply at which quorum
    holds, whatever the channel delivers afterwards. *)
Lemma gather_reaches need (chan : list error) (n k j : nat) :
  (k < j ≤ k + n)%nat → (j ≤ length chan)%nat →
  quorumAfter need chan j = true →
  ∃ j0, (k < j0 ≤ j)%nat
        ∧ Farm.gather need n (drop k chan)
            (errorStrings (take k chan)) (Z.of_nat k)
          = Some (errorStrings (take j0 chan), Z.of_nat j0)
        ∧ quorumAfter need chan j0 = true.
Proof.
  revert k. induction n as [|n IH]; intros k Hkj Hlen Hq; [lia|].
  assert (is_Some (chan !! k)) as [e He] by (apply lookup_lt_is_Some; lia).
  simpl. rewrite (drop_S _ _ _ He).
  assert (Herrs : match e with
                  | Some s => errorStrings (take k chan) ++ [s]
                  | None => errorStrings (take k chan)
                  end = errorStrings (take (S k) chan)).
  { rewrite (errorStrings_snoc_take _ _ _ He).
    destruct e; [done|by rewrite app_nil_r]. }
  rewrite Herrs. replace (Z.of_nat k + 1) with (Z.of_nat (S k)) by lia.
  fold (quorumAfter need chan (S k)).
  destruct (quorumAfter need chan (S k)) eqn:Hqk.
  - exists (S k). split; [lia|done].
  - assert (j ≠ S k) by congruence.
    destruct (IH (S k)) as (j0 & Hj0 & Hg & Hq0); [lia|done..|].
    exists j0. split; [lia|done].
Qed.

(** The gather loop never returns when the channel runs dry before
    quorum holds and before all replies are in. *)
Lemma gather_blocks need (chan : list error) (n k : nat) :
  (k ≤ length chan < k + n)%nat →
  (∀ j, (k < j ≤ length chan)%nat → quorumAfter need chan j = false) →
  Farm.gather need n (drop k chan)
    (errorStrings (take k chan)) (Z.of_nat k) = None.
Proof.
  revert k. induction n as [|n IH]; intros k Hlen Hq; [lia|].
  destruct (decide (k = length chan)) as [->|Hne].
  - by rewrite drop_all.
  - assert (is_Some (chan !! k)) as [e He] by (apply lookup_lt_is_Some; lia).
    simpl. rewrite (drop_S _ _ _ He).
    assert (Herrs : match e with
                    | Some s => errorStrings (take k chan) ++ [s]
                    | None => errorStrings (take k chan)
                    end = errorStrings (take (S k) chan)).
    { rewrite (errorStrings_snoc_take _ _ _ He).
      destruct e; [done|by rewrite app_nil_r]. }
    rewrite Herrs. replace (Z.of_nat k + 1) with (Z.of_nat (S k)) by lia.
    fold (quorumAfter need chan (S k)).
    rewrite (Hq (S k)) by lia. apply IH; [lia|]. intros j Hj. apply Hq. lia.
Qed.

(** X10.  What a write tells the instrumentation.  With an empty batch
    it returns success at once, under every schedule, having read no
    reply and recorded nothing.  With a non-empty batch [Insert] records
    the call, the number of tuples, the quorum failure exactly when it
    returns an error, and the two durations; [Delete] records the same on
    the delete counters. *)
Theorem write_instrumentation (f : Farm.t) (tuples : list KeyScoreMember)
    (arrival : list nat) :
  (∀ anyArrival,
     Farm.Insert f [] anyArrival
     = Some {| returned := None; received := 0; writeEvents := [] |}
     ∧ Farm.Delete f [] anyArrival
       = Some {| returned := None; received := 0; writeEvents := [] |})
  ∧ (tuples ≠ [] →
     arrival ≡ₚ seq 0 (length (Farm.clusters f)) →
     ∃ outI outD,
       Farm.Insert f tuples arrival = Some outI
       ∧ Farm.Delete f tuples arrival = Some outD
       ∧ writeEvents outI
         = [InsertCall; InsertRecordCount (Z.of_nat (length tuples))]
           ++ (if returned outI is Some _ then [InsertQuorumFailure] else [])
           ++ [InsertCallDuration; InsertRecordDuration]
       ∧ writeEvents outD
         = [DeleteCall; DeleteRecordCount (Z.of_nat (length tuples))]
           ++ (if returned outD is Some _ then [DeleteQuorumFailure] else [])
           ++ [DeleteCallDuration; DeleteRecordDuration]).
Proof.
  split; [done|]. intros Hne Harr.
  destruct (write_outcome f tuples (λ c a, Cluster.Insert c a)
              insertInstrumentation arrival Hne Harr)
    as (outI & jI & HwI & _ & _ & _ & _ & HfI).
  destruct (write_outcome f tuples (λ c a, Cluster.Delete c a)
              deleteInstrumentation arrival Hne Harr)
    as (outD & jD & HwD & _ & _ & _ & _ & HfD).
  exists outI, outD. split; [done|]. split; [done|]. split.
  - destruct (quorumAfter _ _ jI).
    + destruct HfI as [-> ->]. done.
    + destruct HfI as (_ & -> & ->). done.
  - destruct (quorumAfter _ _ jD).
    + destruct HfD as [-> ->]. done.
    + destruct HfD as (_ & -> & ->). done.
Qed.

Lemma write_instrumentation_witness :
  let f := Farm.New [reliable; failing "e1"; failing "e2"] 2 in
  let tuples := [mkKSM "k" 1 "m"; mkKSM "k" 2 "n"] in
  let arrival := [1; 0; 2]%nat in
  ∃ outI outD,
    Farm.Insert f tuples arrival = Some outI
    ∧ Farm.Delete f tuples arrival = Some outD
    ∧ writeEvents outI
      = [InsertCall; InsertRecordCount (Z.of_nat (length tuples))]
        ++ (if returned outI is Some _ then [InsertQuorumFailure] else [])
        ++ [InsertCallDuration; InsertRecordDuration]
    ∧ writeEvents outD
      = [DeleteCall; DeleteRecordCount (Z.of_nat (length tuples))]
        ++ (if returned outD is Some _ then [DeleteQuorumFailure] else [])
        ++ [DeleteCallDuration; DeleteRecordDuration].
Proof.
  intros f tuples arrival.
  apply (write_instrumentation f tuples arrival); [done|].
  apply Permutation_swap.
Defined.

(** X11.  A write does not wait for stragglers: with a positive
    [writeQuorum], a successful write has received exactly [writeQuorum]
    acknowledgements, and the last reply it received is one of them. *)
Theorem write_returns_at_quorum (f : Farm.t) (tuples : list KeyScoreMember)
    (action : Cluster.t → list KeyScoreMember → error)
    (instr : writeInstrumentation) (arrival : list nat)
    (out : WriteOutcome) :
  tuples ≠ [] →
  arrival ≡ₚ seq 0 (length (Farm.clusters f)) →
  0 < Farm.writeQuorum f →
  Farm.write f tuples action instr arrival = Some out →
  returned out = None →
  let chan := Farm.deliver arrival (Farm.scatter f action tuples) in
  acknowledgements (take (Z.to_nat (received out)) chan) = Farm.writeQuorum f
  ∧ chan !! (Z.to_nat (received out) - 1)%nat = Some None.
Proof.
  intros Hne Harr Hpos Hw Hret chan.
  destruct (write_outcome f tuples action instr arrival Hne Harr)
    as (out' & j & Hw' & Hrecv & Hj & _ & Hbefore & Hfinal).
  rewrite Hw in Hw'. injection Hw' as <-. fold chan in Hbefore, Hfinal.
  rewrite Hrecv, Nat2Z.id.
  assert (Hlen : length chan = length (Farm.clusters f)).
  { unfold chan. rewrite deliver_length; unfold Farm.scatter;
      rewrite length_map; done. }
  destruct (quorumAfter (Farm.writeQuorum f) chan j) eqn:Hq;
    [|destruct Hfinal as (_ & Hsome & _); congruence].
  apply quorumAfter_acks in Hq; [|lia].
  destruct j as [|j]; [unfold acknowledgements in Hq; simpl in Hq; lia|].
  assert (is_Some (chan !! j)) as [e He] by (apply lookup_lt_is_Some; lia).
  assert (Hprev : acknowledgements (take j chan) < Farm.writeQuorum f).
  { destruct j as [|j']; [unfold acknowledgements; simpl; lia|].
    specialize (Hbefore (S j') ltac:(lia)).
    destruct (Z.lt_ge_cases (acknowledgements (take (S j') chan))
                (Farm.writeQuorum f)) as [?|Hge]; [done|].
    apply quorumAfter_acks in Hge; [congruence|lia]. }
  rewrite (acknowledgements_snoc_take _ _ _ He) in Hq |- *.
  replace (S j - 1)%nat with j by lia. rewrite He.
  destruct e; [lia|]. split; [lia|done].
Qed.

Lemma write_returns_at_quorum_witness :
  let f := Farm.New [reliable; failing "e1"; reliable; reliable] 2 in
  let tuples := [mkKSM "k" 1 "m"] in
  let arrival := [1; 0; 3; 2]%nat in
  let out := {| returned := None; received := 3;
                writeEvents := [InsertCall; InsertRecordCount 1;
                                InsertCallDuration; InsertRecordDuration] |} in
  let chan := Farm.deliver arrival
                (Farm.scatter f (λ c a, Cluster.Insert c a) tuples) in
  acknowledgements (take (Z.to_nat (received out)) chan) = 2
  ∧ chan !! (Z.to_nat (received out) - 1)%nat = Some None.
Proof.
  intros f tuples arrival out chan.
  apply (write_returns_at_quorum f tuples (λ c a, Cluster.Insert c a)
           insertInstrumentation arrival out).
  - done.
  - change ([1; 0; 3; 2]%nat ≡ₚ [0; 1; 2; 3]%nat).
    etrans; [apply Permutation_swap|]. do 2 apply perm_skip.
    apply Permutation_swap.
  - simpl. lia.
  - reflexivity.
  - reflexivity.
Defined.

(** X12.  Whether a write succeeds, and what it records, does not
    depend on the order in which the clusters reply. *)
Theorem write_schedule_independent (f : Farm.t) (tuples : list KeyScoreMember)
    (action : Cluster.t → list KeyScoreMember → error)
    (instr : writeInstrumentation) (arrival arrival' : list nat) :
  tuples ≠ [] →
  arrival ≡ₚ seq 0 (length (Farm.clusters f)) →
  arrival' ≡ₚ seq 0 (length (Farm.clusters f)) →
  ∃ out out',
    Farm.write f tuples action instr arrival = Some out
    ∧ Farm.write f tuples action instr arrival' = Some out'
    ∧ (returned out = None ↔ returned out' = None)
    ∧ writeEvents out = writeEvents out'.
Proof.
  intros Hne Harr Harr'.
  destruct (write_verdict f tuples action instr arrival Hne Harr)
    as (out & Hw & [Hiff _] & _ & _).
  destruct (write_verdict f tuples action instr arrival' Hne Harr')
    as (out' & Hw' & [Hiff' _] & _ & _).
  exists out, out'. split; [done|]. split; [done|].
  assert (Hsame : returned out = None ↔ returned out' = None)
    by (by rewrite Hiff, Hiff').
  split; [done|].
  destruct (write_outcome f tuples action instr arrival Hne Harr)
    as (o & j & Ho & _ & _ & _ & _ & Hfin).
  destruct (write_outcome f tuples action instr arrival' Hne Harr')
    as (o' & j' & Ho' & _ & _ & _ & _ & Hfin').
  rewrite Hw in Ho. injection Ho as <-.
  rewrite Hw' in Ho'. injection Ho' as <-.
  destruct (quorumAfter _ _ j), (quorumAfter _ _ j').
  - destruct Hfin as [_ ->], Hfin' as [_ ->]. done.
  - destruct Hfin as [Hn _], Hfin' as (_ & Hs & _).
    apply Hsame in Hn. congruence.
  - destruct Hfin as (_ & Hs & _), Hfin' as [Hn _].
    apply Hsame in Hn. congruence.
  - destruct Hfin as (_ & _ & ->), Hfin' as (_ & _ & ->). done.
Qed.

Lemma write_schedule_independent_witness :
  let f := Farm.New [reliable; failing "e1"; reliable] 2 in
  let tuples := [mkKSM "k" 1 "m"] in
  ∃ out out',
    Farm.write f tuples (λ c a, Cluster.Insert c a) insertInstrumentation
      [1; 0; 2]%nat = Some out
    ∧ Farm.write f tuples (λ c a, Cluster.Insert c a) insertInstrumentation
        [0; 2; 1]%nat = Some out'
    ∧ (returned out = None ↔ returned out' = None)
    ∧ writeEvents out = writeEvents out'.
Proof.
  intros f tuples.
  apply (write_schedule_independent f tuples (λ c a, Cluster.Insert c a)
           insertInstrumentation [1; 0; 2]%nat [0; 2; 1]%nat).
  - done.
  - apply Permutation_swap.
  - apply perm_skip, Permutation_swap.
Defined.

(** X13.  A quorum failure names every failure: the error string of
    every cluster whose call failed occurs in the returned message. *)
Theorem quorum_failure_names_every_error (f : Farm.t)
    (tuples : list KeyScoreMember)
    (action : Cluster.t → list KeyScoreMember → error)
    (instr : writeInstrumentation) (arrival : list nat)
    (out : WriteOutcome) (msg : string) :
  tuples ≠ [] →
  arrival ≡ₚ seq 0 (length (Farm.clusters f)) →
  Farm.write f tuples action instr arrival = Some out →
  returned out = Some msg →
  ∀ c e, c ∈ Farm.clusters f → action c tuples = Some e → contains msg e.
Proof.
  intros Hne Harr Hw Hret c e Hc He.
  destruct (write_outcome f tuples action instr arrival Hne Harr)
    as (o & j & Ho & _ & _ & _ & _ & Hfin).
  rewrite Hw in Ho. injection Ho as <-.
  destruct (quorumAfter _ _ j); [destruct Hfin; congruence|].
  destruct Hfin as (_ & Hmsg & _). rewrite Hret in Hmsg. injection Hmsg as ->.
  apply noQuorum_contains. unfold errorStrings. apply list_elem_of_omap.
  exists (Some e). split; [|done].
  rewrite deliver_Permutation
    by (unfold Farm.scatter; by rewrite length_map).
  unfold Farm.scatter. apply list_elem_of_fmap. by exists c.
Qed.

Lemma quorum_failure_names_every_error_witness :
  let f := Farm.New [failing "disk full"; reliable; failing "timeout"] 2 in
  let tuples := [mkKSM "k" 1 "m"] in
  Farm.write f tuples (λ c a, Cluster.Delete c a) deleteInstrumentation
    [2; 1; 0]%nat
  = Some {| returned := Some "no quorum (timeout; disk full)";
            received := 3;
            writeEvents := [DeleteCall; DeleteRecordCount 1;
                            DeleteQuorumFailure;
                            DeleteCallDuration; DeleteRecordDuration] |}
  ∧ contains "no quorum (timeout; disk full)" "disk full".
Proof.
  intros f tuples. split; [reflexivity|].
  apply (quorum_failure_names_every_error f tuples
           (λ c a, Cluster.Delete c a) deleteInstrumentation [2; 1; 0]%nat
           {| returned := Some "no quorum (timeout; disk full)";
              received := 3;
              writeEvents := [DeleteCall; DeleteRecordCount 1;
                              DeleteQuorumFailure;
                              DeleteCallDuration; DeleteRecordDuration] |}
           "no quorum (timeout; disk full)" ltac:(done)
           (Permutation.Permutation_rev [2; 1; 0]%nat)
           eq_refl eq_refl (failing "disk full") "disk full").
  - apply list_elem_of_here.
  - reflexivity.
Defined.

(** X14.  A write needs no straggler: once the replies received so far
    hold [writeQuorum] acknowledgements, the write returns success,
    whatever the remaining clusters do afterwards, even if they never
    reply. *)
Theorem write_needs_no_stragglers (f : Farm.t) (tuples : list KeyScoreMember)
    (action : Cluster.t → list KeyScoreMember → error)
    (instr : writeInstrumentation) (early late : list nat) :
  tuples ≠ [] →
  let heard := Farm.deliver early (Farm.scatter f action tuples) in
  (0 < length heard ≤ length (Farm.clusters f))%nat →
  Farm.writeQuorum f ≤ acknowledgements heard →
  ∃ out, Farm.write f tuples action instr (early ++ late) = Some out
         ∧ returned out = None
         ∧ received out ≤ Z.of_nat (length heard).
Proof.
  intros Hne heard Hlen Hacks.
  set (sent := Farm.scatter f action tuples) in *.
  set (chan := Farm.deliver (early ++ late) sent).
  assert (Hchan : chan = heard ++ Farm.deliver late sent).
  { unfold chan, heard, Farm.deliver. by rewrite omap_app. }
  assert (Hq : quorumAfter (Farm.writeQuorum f) chan (length heard) = true).
  { apply quorumAfter_acks; [rewrite Hchan, length_app; lia|].
    by rewrite Hchan, take_app_length. }
  destruct (gather_reaches (Farm.writeQuorum f) chan
              (length (Farm.clusters f)) 0 (length heard))
    as (j0 & Hj0 & Hg & Hq0); [lia|rewrite Hchan, length_app; lia|done|].
  rewrite drop_0 in Hg.
  change (errorStrings (take 0 chan)) with (@nil string) in Hg.
  change (Z.of_nat 0) with 0 in Hg.
  unfold Farm.write.
  destruct (Z.leb_spec (Z.of_nat (length tuples)) 0) as [Hle|_].
  { destruct tuples; [done|simpl in Hle; lia]. }
  fold sent chan. rewrite Hg.
  fold (quorumAfter (Farm.writeQuorum f) chan j0). rewrite Hq0. simpl.
  eexists. split; [done|]. simpl. split; [done|lia].
Qed.

Lemma write_needs_no_stragglers_witness :
  let f := Farm.New [reliable; reliable; reliable] 2 in
  ∃ out, Farm.write f [mkKSM "k" 1 "m"] (λ c a, Cluster.Insert c a)
           insertInstrumentation ([2; 0]%nat ++ []) = Some out
         ∧ returned out = None
         ∧ received out ≤ 2.
Proof.
  intros f.
  apply (write_needs_no_stragglers f [mkKSM "k" 1 "m"]
           (λ c a, Cluster.Insert c a) insertInstrumentation [2; 0]%nat []).
  - done.
  - simpl. lia.
  - vm_compute. discriminate.
Defined.

(** X15.  A write has no timeout: when a cluster never replies and the
    replies of the others never hold [writeQuorum] acknowledgements, the
    write does not return. *)
Theorem write_blocks_without_quorum (f : Farm.t) (tuples : list KeyScoreMember)
    (action : Cluster.t → list KeyScoreMember → error)
    (instr : writeInstrumentation) (arrival : list nat) :
  tuples ≠ [] →
  let chan := Farm.deliver arrival (Farm.scatter f action tuples) in
  (length chan < length (Farm.clusters f))%nat →
  (∀ j, (0 < j ≤ length chan)%nat →
        acknowledgements (take j chan) < Farm.writeQuorum f) →
  Farm.write f tuples action instr arrival = None.
Proof.
  intros Hne chan Hlen Hno. unfold Farm.write.
  destruct (Z.leb_spec (Z.of_nat (length tuples)) 0) as [Hle|_].
  { destruct tuples; [done|simpl in Hle; lia]. }
  fold chan.
  pose proof (gather_blocks (Farm.writeQuorum f) chan
                (length (Farm.clusters f)) 0) as Hb.
  rewrite drop_0 in Hb.
  change (errorStrings (take 0 chan)) with (@nil string) in Hb.
  change (Z.of_nat 0) with 0 in Hb. rewrite Hb; [done|lia|].
  intros j Hj. specialize (Hno j Hj).
  destruct (quorumAfter (Farm.writeQuorum f) chan j) eqn:Hq; [|done].
  apply quorumAfter_acks in Hq; lia.
Qed.

Lemma write_blocks_without_quorum_witness :
  Farm.write (Farm.New [reliable; failing "e"; reliable] 2)
    [mkKSM "k" 1 "m"] (λ c a, Cluster.Insert c a) insertInstrumentation
    [1; 0]%nat = None.
Proof.
  apply (write_blocks_without_quorum
           (Farm.New [reliable; failing "e"; reliable] 2)).
  - done.
  - simpl. lia.
  - intros [|[|[|j]]] Hj; simpl in Hj; try lia; vm_compute; done.
Defined.

(** ** The repair coordinator *)

Lemma gatherStep_cases (st : gatherState) (resp : scoreResponseTuple) :
  (highestScore (Farm.gatherStep st resp) = highestScore st
   ∧ wasInsertedBest (Farm.gatherStep st resp) = wasInsertedBest st)
  ∨ (err resp = None ∧ highestScore st < score resp
     ∧ highestScore (Farm.gatherStep st resp) = score resp
     ∧ wasInsertedBest (Farm.gatherStep st resp) = wasInserted resp).
Proof.
  unfold Farm.gatherStep. destruct (err resp); [by left|].
  destruct ((score resp =? highestScore st)
            && Bool.eqb (wasInserted resp) (wasInsertedBest st)); [by left|].
  destruct (Z.gtb_spec (score resp) (highestScore st)); [right|by left].
  simpl. repeat split; try done; lia.
Qed.

(** The elected side is the side of the first successful response that
    carries the elected score; with no positive score the locals keep
    their initial values. *)
Lemma gather_first_best (seen : list scoreResponseTuple) :
  let st := foldl Farm.gatherStep Farm.gatherInit seen in
  (highestScore st = 0 ∧ wasInsertedBest st = false)
  ∨ (0 < highestScore st
     ∧ ∃ r, firstWith seen (highestScore st) r
            ∧ wasInserted r = wasInsertedBest st).
Proof.
  induction seen as [|resp seen IH] using rev_ind; [by left|].
  simpl in *. rewrite foldl_snoc.
  set (st := foldl Farm.gatherStep Farm.gatherInit seen) in *.
  pose proof (gatherInv_foldl seen) as [_ Hbd _ _ _ _]. fold st in Hbd.
  destruct (gatherStep_cases st resp) as [[-> ->]|(He & Hgt & -> & ->)].
  - destruct IH as [?|(Hpos & r & (pre & post & -> & Hr) & Hw)]; [by left|].
    right. split; [done|]. exists r. split; [|done].
    exists pre, (post ++ [resp]). by rewrite <-app_assoc.
  - right. split; [destruct IH as [[? _]|[? _]]; lia|].
    exists resp. split; [|done]. exists seen, []. split; [done|].
    split; [done|]. split; [done|].
    intros r' Hr' He'. specialize (Hbd r' Hr' He'). lia.
Qed.

Lemma gatherScores_short (n : nat) (chan : list scoreResponseTuple) st :
  (length chan < n)%nat → Farm.gatherScores n chan st = None.
Proof.
  revert chan st. induction n as [|n IH]; intros chan st Hlen; [lia|].
  destruct chan as [|resp chan]; simpl; [done|].
  apply IH. simpl in Hlen. lia.
Qed.

Lemma failedQueries_imap (h : nat → Cluster.t → scoreResponseTuple)
    (g : Cluster.t → error) (l : list Cluster.t) :
  (∀ i c, err (h i c) = g c) →
  failedQueries (imap h l) = length (filter (λ c, g c ≠ None) l).
Proof.
  unfold failedQueries. revert h.
  induction l as [|c l IH]; intros h Hh; [done|].
  rewrite imap_cons, !filter_cons, Hh.
  destruct (decide (g c ≠ None)); simpl; rewrite (IH (h ∘ S)); try done;
    intros i c'; apply Hh.
Qed.

Lemma failedQueries_scatterScore (f : Farm.t) (km : keyMember) :
  failedQueries (Farm.scatterScore f km) = failingQueries f km.
Proof.
  unfold Farm.scatterScore, failingQueries. apply failedQueries_imap.
  intros i c. unfold replyOf.
  by destruct (Cluster.Score c (kmKey km) (kmMember km)) as [[s w] e].
Qed.

(** X16.  Every repair ends in exactly one of three ways.  It records,
    in whatever order the sink receives them, the two events of the
    call, one partial failure per cluster whose score query failed, the
    check duration, and then either the complete failure (elected score
    zero), or the redundant repair (positive score, every reply is the
    elected one), or the write count with the events of the pushes
    (positive score, some reply differs); clusters are written to in
    the last case only. *)
Theorem repair_protocol (f : Farm.t) (km : keyMember) (arrival : list nat) :
  arrival ≡ₚ seq 0 (length (Farm.clusters f)) →
  ∃ st out ending,
    Farm.elect f km arrival = Some st
    ∧ Farm.Repair f km arrival = Some out
    ∧ repairRecords out (failingQueries f km) ending
    ∧ ((highestScore st = 0
        ∧ ending = [RepairCheckCompleteFailure] ∧ writes out = [])
       ∨ (0 < highestScore st
          ∧ Forall (λ c, replyOf c km = winning st) (Farm.clusters f)
          ∧ ending = [RepairCheckRedundant] ∧ writes out = [])
       ∨ (0 < highestScore st
          ∧ Exists (λ c, replyOf c km ≠ winning st) (Farm.clusters f)
          ∧ ending = RepairWriteCount :: (writes out ≫= Farm.pushEvents)
          ∧ writes out ≠ [])).
Proof.
  intros Hperm.
  set (chan := Farm.deliver arrival (Farm.scatterScore f km)).
  set (st := foldl Farm.gatherStep Farm.gatherInit chan).
  pose proof (final_inv f km arrival) as [Hnn _ _ _ _ Hfail].
  fold chan st in Hnn, Hfail.
  rewrite (failedQueries_Permutation chan (Farm.scatterScore f km)) in Hfail
    by apply (chan_perm f km arrival Hperm).
  rewrite failedQueries_scatterScore in Hfail.
  pose proof (all_marked_iff f km arrival Hperm) as Hall. fold chan st in Hall.
  exists st. unfold Farm.Repair, repairRecords.
  rewrite (elect_final f km arrival Hperm). fold chan st. rewrite Hfail.
  destruct (Z.eqb_spec (highestScore st) 0) as [Hz|Hnz].
  { eexists _, [RepairCheckCompleteFailure].
    split; [done|]. split; [done|]. simpl.
    split; [apply reflexive_eq; by rewrite <-!app_assoc|]. by left. }
  destruct (Z.eqb_spec (Z.of_nat (size (clustersUpToDate st)))
                       (Z.of_nat (length (Farm.clusters f)))) as [Hsz|Hsz].
  { apply Nat2Z.inj in Hsz. pose proof (proj1 Hall Hsz) as Hagree.
    eexists _, [RepairCheckRedundant].
    split; [done|]. split; [done|]. simpl.
    split; [apply reflexive_eq; by rewrite <-!app_assoc|]. right. left.
    split; [lia|]. split; [by apply Forall_forall|done]. }
  assert (Hex : Exists (λ c, replyOf c km ≠ winning st) (Farm.clusters f)).
  { apply not_Forall_Exists; [apply _|]. intros Hfa. apply Hsz. f_equal.
    apply Hall. by apply Forall_forall. }
  eexists _, (RepairWriteCount :: _).
  split; [done|]. split; [done|]. simpl.
  split; [apply reflexive_eq; by rewrite <-!app_assoc|]. right. right.
  split; [lia|]. split; [done|]. split; [done|].
  apply Exists_exists in Hex as (c & [i Hc]%list_elem_of_lookup & Hne).
  pose proof (writesTo_propagate f st km i) as Hw. rewrite Hc in Hw.
  pose proof (marked_iff f km arrival Hperm i c Hc) as Hm. fold chan st in Hm.
  rewrite Hm, bool_decide_eq_false_2 in Hw by done.
  intros Hnil. rewrite Hnil in Hw. done.
Qed.

Lemma repair_protocol_witness :
  let f := Farm.New [holding 3 true; failing "down"; holding 1 true] 2 in
  let km := mkKM "k" "m" in
  let arrival := [1; 0; 2]%nat in
  ∃ st out ending,
    Farm.elect f km arrival = Some st
    ∧ Farm.Repair f km arrival = Some out
    ∧ repairRecords out (failingQueries f km) ending
    ∧ ((highestScore st = 0
        ∧ ending = [RepairCheckCompleteFailure] ∧ writes out = [])
       ∨ (0 < highestScore st
          ∧ Forall (λ c, replyOf c km = winning st) (Farm.clusters f)
          ∧ ending = [RepairCheckRedundant] ∧ writes out = [])
       ∨ (0 < highestScore st
          ∧ Exists (λ c, replyOf c km ≠ winning st) (Farm.clusters f)
          ∧ ending = RepairWriteCount :: (writes out ≫= Farm.pushEvents)
          ∧ writes out ≠ [])).
Proof.
  intros f km arrival. apply (repair_protocol f km arrival).
  apply Permutation_swap.
Defined.

(** X17.  Ties go to the first arrival: when the elected score is
    positive, the elected side is the side of the first successful
    response, in arrival order, that carries the elected score. *)
Theorem repair_side_of_first_best (f : Farm.t) (km : keyMember)
    (arrival : list nat) (st : gatherState) :
  arrival ≡ₚ seq 0 (length (Farm.clusters f)) →
  Farm.elect f km arrival = Some st →
  0 < highestScore st →
  ∃ r, firstWith (Farm.deliver arrival (Farm.scatterScore f km))
         (highestScore st) r
       ∧ wasInsertedBest st = wasInserted r.
Proof.
  intros Hperm Helect Hpos.
  rewrite (elect_final f km arrival Hperm) in Helect. injection Helect as <-.
  destruct (gather_first_best
              (Farm.deliver arrival (Farm.scatterScore f km)))
    as [[Hz _]|(_ & r & Hfirst & Hw)]; [simpl in *; lia|].
  by exists r.
Qed.

Lemma repair_side_of_first_best_witness :
  let f := Farm.New [holding 3 true; holding 3 false; holding 1 true] 2 in
  let km := mkKM "k" "m" in
  let arrival := [1; 0; 2]%nat in
  ∃ r, firstWith (Farm.deliver arrival (Farm.scatterScore f km)) 3 r
       ∧ false = wasInserted r.
Proof.
  intros f km arrival.
  apply (repair_side_of_first_best f km arrival
           {| clustersUpToDate := {[ 1%nat := true ]};
              highestScore := 3; wasInsertedBest := false;
              partialFailures := [] |}).
  - apply Permutation_swap.
  - vm_compute. reflexivity.
  - simpl. lia.
Defined.

(** The marks of the gather loop, cluster by cluster. *)
Lemma marked_lookup (f : Farm.t) (km : keyMember) (arrival : list nat) (i : nat) :
  arrival ≡ₚ seq 0 (length (Farm.clusters f)) →
  let st := foldl Farm.gatherStep Farm.gatherInit
              (Farm.deliver arrival (Farm.scatterScore f km)) in
  clustersUpToDate st !! i
  = match Farm.clusters f !! i with
    | Some c => if decide (replyOf c km = winning st) then Some true else None
    | None => None
    end.
Proof.
  intros Hperm st.
  pose proof (final_inv f km arrival) as [_ _ _ Hsound _ _]. fold st in Hsound.
  destruct (Farm.clusters f !! i) as [c|] eqn:Hc.
  - pose proof (marked_iff f km arrival Hperm i c Hc) as Hm. fold st in Hm.
    destruct (clustersUpToDate st !! i) as [b|] eqn:Hb; simpl in Hm.
    + destruct (Hsound i b Hb) as [-> _]. symmetry in Hm.
      apply bool_decide_eq_true in Hm. by rewrite decide_True.
    + symmetry in Hm. apply bool_decide_eq_false in Hm.
      by rewrite decide_False.
  - destruct (clustersUpToDate st !! i) as [b|] eqn:Hb; [|done].
    assert (Hi : i ∈ dom (clustersUpToDate st)) by (apply elem_of_dom; eauto).
    apply (marked_dom f km arrival Hperm), elem_of_set_seq in Hi.
    apply lookup_ge_None in Hc. lia.
Qed.

(** The elected score is zero or a score some cluster replied with, and
    it bounds every successful reply. *)
Lemma final_score_max (f : Farm.t) (km : keyMember) (arrival : list nat) :
  arrival ≡ₚ seq 0 (length (Farm.clusters f)) →
  let st := foldl Farm.gatherStep Farm.gatherInit
              (Farm.deliver arrival (Farm.scatterScore f km)) in
  0 ≤ highestScore st
  ∧ (∀ c s w, c ∈ Farm.clusters f → replyOf c km = (s, w, None) →
              s ≤ highestScore st)
  ∧ ((highestScore st = 0 ∧ wasInsertedBest st = false)
     ∨ (0 < highestScore st
        ∧ ∃ c, c ∈ Farm.clusters f ∧ replyOf c km = winning st)).
Proof.
  intros Hperm st.
  pose proof (final_inv f km arrival) as [Hnn Hbd _ _ _ _]. fold st in Hnn, Hbd.
  split; [done|]. split.
  - intros c s w [i Hc]%list_elem_of_lookup Hrep.
    apply (Hbd {| cluster := i; score := s; wasInserted := w; err := None |});
      [|done].
    apply (elem_of_chan f km arrival Hperm). exists i, c. by rewrite Hrep.
  - destruct (gather_first_best
                (Farm.deliver arrival (Farm.scatterScore f km)))
      as [?|(Hpos & r & (pre & post & Hsplit & He & Hs & _) & Hw)]; [by left|].
    fold st in Hpos, Hs, Hw. right. split; [done|].
    assert (Hr : r ∈ Farm.deliver arrival (Farm.scatterScore f km)).
    { rewrite Hsplit. apply elem_of_app. right. apply list_elem_of_here. }
    apply (elem_of_chan f km arrival Hperm) in Hr as (i & c & Hc & _ & Hrep).
    exists c. split; [by eapply list_elem_of_lookup_2|].
    by apply (agrees_winning km st r c).
Qed.

(** X18.  The elected score does not depend on the order in which the
    clusters answer: it is the greatest successful score, or zero. *)
Theorem repair_score_schedule_independent (f : Farm.t) (km : keyMember)
    (arrival arrival' : list nat) :
  arrival ≡ₚ seq 0 (length (Farm.clusters f)) →
  arrival' ≡ₚ seq 0 (length (Farm.clusters f)) →
  ∃ st st', Farm.elect f km arrival = Some st
            ∧ Farm.elect f km arrival' = Some st'
            ∧ highestScore st = highestScore st'.
Proof.
  intros Hperm Hperm'.
  exists (foldl Farm.gatherStep Farm.gatherInit
            (Farm.deliver arrival (Farm.scatterScore f km))),
         (foldl Farm.gatherStep Farm.gatherInit
            (Farm.deliver arrival' (Farm.scatterScore f km))).
  split; [by apply elect_final|]. split; [by apply elect_final|].
  destruct (final_score_max f km arrival Hperm) as (Hnn & Hbd & Hatt).
  destruct (final_score_max f km arrival' Hperm') as (Hnn' & Hbd' & Hatt').
  simpl in *. apply Z.le_antisymm.
  - destruct Hatt as [[-> _]|(_ & c & Hc & Hrep)]; [done|].
    by apply (Hbd' c _ _ Hc Hrep).
  - destruct Hatt' as [[-> _]|(_ & c & Hc & Hrep)]; [done|].
    by apply (Hbd c _ _ Hc Hrep).
Qed.

Lemma repair_score_schedule_independent_witness :
  let f := Farm.New [holding 3 true; holding 3 false; holding 1 true] 2 in
  let km := mkKM "k" "m" in
  ∃ st st', Farm.elect f km [1; 0; 2]%nat = Some st
            ∧ Farm.elect f km [0; 2; 1]%nat = Some st'
            ∧ highestScore st = highestScore st'.
Proof.
  intros f km.
  apply (repair_score_schedule_independent f km [1; 0; 2]%nat [0; 2; 1]%nat).
  - apply Permutation_swap.
  - apply perm_skip, Permutation_swap.
Defined.

(** X19.  Where no two clusters report the same positive score on
    different sides, a repair does not depend on the order in which the
    clusters answer: it elects the same (score, side), pushes the same
    writes and records the same events. *)
Theorem repair_schedule_independent (f : Farm.t) (km : keyMember)
    (arrival arrival' : list nat) :
  arrival ≡ₚ seq 0 (length (Farm.clusters f)) →
  arrival' ≡ₚ seq 0 (length (Farm.clusters f)) →
  (∀ c c' s w w', c ∈ Farm.clusters f → c' ∈ Farm.clusters f → 0 < s →
                  replyOf c km = (s, w, None) → replyOf c' km = (s, w', None) →
                  w = w') →
  Farm.elect f km arrival = Farm.elect f km arrival'
  ∧ Farm.Repair f km arrival = Farm.Repair f km arrival'.
Proof.
  intros Hperm Hperm' Hnotie.
  assert (Helect : Farm.elect f km arrival = Farm.elect f km arrival').
  { rewrite (elect_final f km arrival Hperm), (elect_final f km arrival' Hperm').
    f_equal.
    set (st := foldl Farm.gatherStep Farm.gatherInit
                 (Farm.deliver arrival (Farm.scatterScore f km))).
    set (st' := foldl Farm.gatherStep Farm.gatherInit
                  (Farm.deliver arrival' (Farm.scatterScore f km))).
    destruct (final_score_max f km arrival Hperm) as (Hnn & Hbd & Hatt).
    destruct (final_score_max f km arrival' Hperm') as (Hnn' & Hbd' & Hatt').
    fold st in Hnn, Hbd, Hatt. fold st' in Hnn', Hbd', Hatt'.
    assert (Hhs : highestScore st = highestScore st').
    { apply Z.le_antisymm.
      - destruct Hatt as [[-> _]|(_ & c & Hc & Hrep)]; [done|].
        by apply (Hbd' c _ _ Hc Hrep).
      - destruct Hatt' as [[-> _]|(_ & c & Hc & Hrep)]; [done|].
        by apply (Hbd c _ _ Hc Hrep). }
    assert (Hwi : wasInsertedBest st = wasInsertedBest st').
    { destruct Hatt as [[Hz Hw]|(Hpos & c & Hc & Hrep)],
               Hatt' as [[Hz' Hw']|(Hpos' & c' & Hc' & Hrep')];
        try lia; [congruence|].
      unfold winning in Hrep, Hrep'. rewrite <-Hhs in Hrep'.
      by apply (Hnotie c c' (highestScore st) _ _ Hc Hc' Hpos). }
    assert (Hwin : winning st = winning st').
    { unfold winning. by rewrite Hhs, Hwi. }
    assert (Hmarks : clustersUpToDate st = clustersUpToDate st').
    { apply map_eq. intros i.
      pose proof (marked_lookup f km arrival i Hperm) as H1.
      pose proof (marked_lookup f km arrival' i Hperm') as H2.
      fold st in H1. fold st' in H2. simpl in H1, H2.
      rewrite H1, H2, Hwin. done. }
    assert (Hpf : partialFailures st = partialFailures st').
    { pose proof (final_inv f km arrival) as [_ _ _ _ _ Hf].
      pose proof (final_inv f km arrival') as [_ _ _ _ _ Hf'].
      fold st in Hf. fold st' in Hf'. rewrite Hf, Hf'. f_equal.
      rewrite (failedQueries_Permutation _ _ (chan_perm f km arrival Hperm)).
      by rewrite (failedQueries_Permutation _ _
                    (chan_perm f km arrival' Hperm')). }
    destruct st, st'. simpl in *. by subst. }
  split; [done|]. unfold Farm.Repair. by rewrite Helect.
Qed.

Lemma repair_schedule_independent_witness :
  let f := Farm.New [holding 3 true; failing "down"; holding 1 true] 2 in
  let km := mkKM "k" "m" in
  Farm.elect f km [1; 0; 2]%nat = Farm.elect f km [0; 2; 1]%nat
  ∧ Farm.Repair f km [1; 0; 2]%nat = Farm.Repair f km [0; 2; 1]%nat.
Proof.
  intros f km.
  apply (repair_schedule_independent f km [1; 0; 2]%nat [0; 2; 1]%nat).
  - apply Permutation_swap.
  - apply perm_skip, Permutation_swap.
  - intros c c' s w w' Hc Hc' Hs Hrep Hrep'.
    apply list_elem_of_In in Hc, Hc'.
    destruct Hc as [<-|[<-|[<-|[]]]], Hc' as [<-|[<-|[<-|[]]]];
      inversion Hrep; inversion Hrep'; subst; try done; lia.
Defined.

(** X20.  A repair has no timeout either: it reads one score response
    per cluster before it decides anything, so when a cluster never
    answers it neither returns nor writes, whatever the others said. *)
Theorem repair_blocks_without_all_responses (f : Farm.t) (km : keyMember)
    (arrival : list nat) :
  (length (Farm.deliver arrival (Farm.scatterScore f km))
   < length (Farm.clusters f))%nat →
  Farm.Repair f km arrival = None.
Proof.
  intros Hlen. unfold Farm.Repair, Farm.elect.
  by rewrite gatherScores_short.
Qed.

Lemma repair_blocks_without_all_responses_witness :
  Farm.Repair (Farm.New [holding 3 true; holding 3 true; holding 1 true] 2)
    (mkKM "k" "m") [0; 1]%nat = None.
Proof.
  apply repair_blocks_without_all_responses. simpl. lia.
Defined.

(** ** The read path: slicing a union *)

(** X21.  The ordered slice of a union holds every (key, member) at
    most once, and only tuples of the union. *)
Theorem union_slice_one_per_pair (sets : list tupleSet) (limit : Z) :
  0 ≤ limit →
  ∃ a, orderedLimitedSlice (unionOf sets) limit = Some a
       ∧ NoDup (kmOf <$> a)
       ∧ (∀ t, t ∈ a → t ∈ unionOf sets).
Proof.
  intros Hlim. unfold orderedLimitedSlice, TupleSet.slice.
  rewrite orderLimit_take by done.
  set (srt := sortKSM (elements (unionOf sets))).
  assert (Hperm : srt ≡ₚ elements (unionOf sets))
    by apply merge_sort_Permutation.
  assert (Hnd : NoDup srt) by (rewrite Hperm; apply NoDup_elements).
  assert (Hsub : ∀ t, t ∈ take (Z.to_nat limit) srt → t ∈ unionOf sets).
  { intros t Ht. apply (subseteq_take (Z.to_nat limit) srt) in Ht.
    rewrite Hperm in Ht. by apply elem_of_elements. }
  eexists. split; [done|]. split; [|done].
  apply NoDup_fmap_2_strong.
  - intros t t' Ht Ht' Hk. apply (union_single_per_pair sets); auto.
  - rewrite <-(take_drop (Z.to_nat limit) srt) in Hnd.
    by apply NoDup_app in Hnd as [? _].
Qed.

Lemma union_slice_one_per_pair_witness :
  let sets : list tupleSet :=
    [ {[ mkKSM "k" 1 "m1" ]}; {[ mkKSM "k" 2 "m1"; mkKSM "k" 1 "m2" ]} ] in
  ∃ a, orderedLimitedSlice (unionOf sets) 10 = Some a
       ∧ NoDup (kmOf <$> a)
       ∧ (∀ t, t ∈ a → t ∈ unionOf sets).
Proof. intros sets. apply (union_slice_one_per_pair sets 10). lia. Defined.
